(** * Verification of [code/augment_text.py]

    Text augmentation for Korean dialogue summarization datasets: four
    lightweight transforms of the dialogue text, the sampling policy and the
    assembly of the augmented data set.

    The Python program is embedded shallowly:
    - a [str] is the list of its Unicode code points ([text]);
    - a [float] is an IEEE 754 binary64 value ([spec_float] at precision 53,
      maximal exponent 1024), with the operations of the Standard Library's
      [SpecFloat];
    - the process-wide generator of the [random] module is an explicit state
      threaded through every function that draws from it;
    - exceptions are values of type [exn]; a raising computation returns
      [inl e] together with the state reached so far;
    - the [re] module is embedded as a small backtracking matcher; the
      Unicode tables behind [\w], [\d] and [\s] are parameters;
    - a pandas data frame is its list of column names and its list of rows,
      a row being a finite map from column names to cells; the file system
      maps a path to the frame stored there. *)

From Stdlib Require Import ZArith QArith Qabs List String Ascii SpecFloat Lia.
From Stdlib Require Import DecimalNat.
From stdpp Require Import gmap list.

Open Scope Z_scope.

(** ** Text *)

(** A character is a Unicode code point, a Python [str] the list of its
    code points ([len] is [length], indexing is by code point). *)
Definition char := N.
Definition text := list char.

(** String literals of this file are UTF-8; [utf8] decodes the bytes of a
    well-formed literal into code points. *)
Fixpoint utf8 (bs : list N) : text :=
  (match bs with
   | [] => []
   | b0 :: r0 =>
     if b0 <? 128 then b0 :: utf8 r0
     else match r0 with
     | [] => []
     | b1 :: r1 =>
       if b0 <? 224 then ((b0 - 192) * 64 + (b1 - 128)) :: utf8 r1
       else match r1 with
       | [] => []
       | b2 :: r2 =>
         if b0 <? 240
         then ((b0 - 224) * 4096 + (b1 - 128) * 64 + (b2 - 128)) :: utf8 r2
         else match r2 with
         | [] => []
         | b3 :: r3 =>
           ((b0 - 240) * 262144 + (b1 - 128) * 4096
            + (b2 - 128) * 64 + (b3 - 128)) :: utf8 r3
         end
       end
     end
   end)%N.

Definition U (s : string) : text :=
  utf8 (map N_of_ascii (list_ascii_of_string s)).

(** [str(i)] for a non-negative integer: its decimal digits. *)
Fixpoint uint_text (d : Decimal.uint) : text :=
  match d with
  | Decimal.Nil => []
  | Decimal.D0 d => 48%N :: uint_text d
  | Decimal.D1 d => 49%N :: uint_text d
  | Decimal.D2 d => 50%N :: uint_text d
  | Decimal.D3 d => 51%N :: uint_text d
  | Decimal.D4 d => 52%N :: uint_text d
  | Decimal.D5 d => 53%N :: uint_text d
  | Decimal.D6 d => 54%N :: uint_text d
  | Decimal.D7 d => 55%N :: uint_text d
  | Decimal.D8 d => 56%N :: uint_text d
  | Decimal.D9 d => 57%N :: uint_text d
  end.

Definition str_of_nat (i : nat) : text := uint_text (Nat.to_uint i).

(** One of the characters [0] to [9]. *)
Definition is_digit (c : char) : Prop := (48 <= c <= 57)%N.

(** ** Exceptions and the state-and-exception monad *)

Inductive exn :=
| ValueError (msg : text)
| OverflowError (msg : text)
| IndexError (msg : text)
| KeyError (key : text)
| FileNotFoundError (path : text).

(** A computation over a state [S]: it returns the state it reached and
    either the exception it raised or its value. *)
Definition M (S A : Type) : Type := S -> S * (exn + A).

Definition ret {S A} (a : A) : M S A := fun s => (s, inr a).
Definition raise {S A} (e : exn) : M S A := fun s => (s, inl e).
Definition bind {S A B} (m : M S A) (k : A -> M S B) : M S B :=
  fun s => match m s with
           | (s', inr a) => k a s'
           | (s', inl e) => (s', inl e)
           end.

Notation "x <- m ;; k" := (bind m (fun x => k))
  (at level 100, m at next level, right associativity).

(** A pure computation that may raise, run inside [M]. *)
Definition lift {S A} (r : exn + A) : M S A := fun s => (s, r).

(** [for x in xs: ...] collecting one result per element. *)
Fixpoint mapM {S A B} (f : A -> M S B) (xs : list A) : M S (list B) :=
  match xs with
  | [] => ret []
  | x :: xs' => y <- f x ;; ys <- mapM f xs' ;; ret (y :: ys)
  end.

(** [for x in xs: acc = f(acc, x)]. *)
Fixpoint foldM {S A B} (f : B -> A -> M S B) (xs : list A) (acc : B) : M S B :=
  match xs with
  | [] => ret acc
  | x :: xs' => acc' <- f acc x ;; foldM f xs' acc'
  end.

(** [m] raises nothing, and every value it returns satisfies [P]. *)
Definition returns {S A} (m : M S A) (P : A -> Prop) : Prop :=
  forall s, exists s' a, m s = (s', inr a) /\ P a.

(** ** Floats *)

Definition float := spec_float.

Definition fmul : float -> float -> float := SFmul 53 1024.
Definition fdiv : float -> float -> float := SFdiv 53 1024.
Definition fleb : float -> float -> bool := SFleb.
Definition fltb : float -> float -> bool := SFltb.
Definition fzero : float := S754_zero false.
Definition fone : float := S754_finite false 4503599627370496 (-52).

Definition is_finite (x : float) : bool :=
  match x with
  | S754_zero _ | S754_finite _ _ _ => true
  | _ => false
  end.

(** The largest finite float, about 1.8e308, and the positive infinity. *)
Definition float_max : float := S754_finite false 9007199254740991 971.
Definition float_inf : float := S754_infinity false.

(** [float(n)] for an [int]: the nearest binary64, [OverflowError] beyond
    the range. *)
Definition float_of_int (n : Z) : exn + float :=
  match binary_normalize 53 1024 n 0 false with
  | S754_infinity _ | S754_nan =>
      inl (OverflowError (U "int too large to convert to float"))
  | x => inr x
  end.

(** The float written [num/den] in decimal notation, e.g. [0.3] is
    [decimal 3 10]: the binary64 nearest to the quotient. *)
Definition decimal (num den : Z) : float :=
  fdiv (binary_normalize 53 1024 num 0 false)
       (binary_normalize 53 1024 den 0 false).

(** [num/den] rounded to the nearest integer, ties to the even one. *)
Definition round_half_even (num : Z) (den : Z) : Z :=
  let q := num / den in
  let r := num mod den in
  match 2 * r ?= den with
  | Lt => q
  | Gt => q + 1
  | Eq => if Z.even q then q else q + 1
  end.

(** [round(x)] for a float [x] (no [ndigits]): an [int], ties to even;
    it raises on infinities and NaN. *)
Definition py_round (x : float) : exn + Z :=
  match x with
  | S754_nan => inl (ValueError (U "cannot convert float NaN to integer"))
  | S754_infinity _ =>
      inl (OverflowError (U "cannot convert float infinity to integer"))
  | S754_zero _ => inr 0
  | S754_finite s m e =>
      if 0 <=? e then inr (cond_Zopp s (Zpos m * 2 ^ e))
      else inr (round_half_even (cond_Zopp s (Zpos m)) (2 ^ (- e)))
  end.

(** The rational value of a finite float (0 for the others). *)
Definition F2Q (x : float) : Q :=
  match x with
  | S754_finite s m e =>
      if 0 <=? e then inject_Z (cond_Zopp s (Zpos m * 2 ^ e))
      else Qmake (cond_Zopp s (Zpos m)) (Z.to_pos (2 ^ (- e)))
  | _ => 0%Q
  end.

(** [r] is an integer nearest to [v], the even one on a tie. *)
Definition nearest_even (v : Q) (r : Z) : Prop :=
  (Qabs (v - inject_Z r) <= 1 # 2)%Q /\
  (Qabs (v - inject_Z r) == 1 # 2 -> Z.even r = true)%Q.

(** ** Sampling policy *)

(** [compute_aug_count(n_rows, factor)]: the number of additional rows. *)
Definition compute_aug_count (n_rows : Z) (factor : float) : exn + Z :=
  if fleb factor fzero then inr 0
  else
    match float_of_int n_rows with
    | inl e => inl e
    | inr nf =>
      match py_round (fmul nf factor) with
      | inl e => inl e
      | inr r => inr (Z.max 1 r)
      end
    end.

(** ** Character classes

    The Unicode character database behind [str.isalnum], the [\d] class
    and [str.isspace] belongs to the Python runtime, not to the program:
    it is a parameter of the development. *)
Class Unicode := {
  (** [str.isalnum]; [\w] is [isalnum] or the underscore *)
  isalnum : char -> bool;
  (** the decimal digits (category Nd), the class [\d] *)
  isdecimal : char -> bool;
  (** [str.isspace], the class [\s] and what [str.strip] removes *)
  isspace : char -> bool
}.

Definition chr_eqb (a b : char) : bool := N.eqb a b.

Definition c_hash : char := 35%N.        (* # *)
Definition c_underscore : char := 95%N.  (* _ *)
Definition c_space : char := 32%N.
Definition c_comma : char := 44%N.       (* , *)
Definition c_dot : char := 46%N.         (* . *)
Definition c_bang : char := 33%N.        (* ! *)
Definition c_quest : char := 63%N.       (* ? *)
Definition c_semi : char := 59%N.        (* ; *)

(** One of the characters [punct_jitter] acts on. *)
Definition is_punct (c : char) : bool :=
  chr_eqb c c_quest || chr_eqb c c_bang || chr_eqb c c_comma.

Section Classes.
Context {UCD : Unicode}.

(** [\w] *)
Definition is_word (c : char) : bool := isalnum c || chr_eqb c c_underscore.
(** [[#\w]] *)
Definition is_hash_or_word (c : char) : bool := chr_eqb c c_hash || is_word c.
(** [[.,]] *)
Definition is_sep (c : char) : bool := chr_eqb c c_dot || chr_eqb c c_comma.
(** [[,. ]] *)
Definition is_trail (c : char) : bool :=
  chr_eqb c c_comma || chr_eqb c c_dot || chr_eqb c c_space.
End Classes.

(** ** Regular expressions

    The fragment of the [re] syntax the program uses.  Matching is the
    backtracking search of the [re] module: greedy repetition, alternatives
    tried in order, the first success wins. *)
Inductive regex :=
| Eps                                  (* the empty pattern *)
| Lit (c : char)                       (* a literal character *)
| Cls (p : char -> bool)               (* one character of a class *)
| Star (p : char -> bool)              (* greedy [p*] over a class *)
| Cat (r1 r2 : regex)                  (* concatenation *)
| Opt (r : regex)                      (* greedy [(?:r)?] *)
| NotBehind (p : char -> bool)         (* [(?<![p])] *)
| NotAhead (p : char -> bool)          (* [(?![p])] *)
| WordB.                               (* [\b] *)

(** [p+] *)
Definition Plus (p : char -> bool) : regex := Cat (Cls p) (Star p).

(** The literal string [s], as [re.escape(s)] matches it. *)
Fixpoint Lits (s : text) : regex :=
  match s with
  | [] => Eps
  | c :: s' => Cat (Lit c) (Lits s')
  end.

(** A continuation receives the characters behind the cursor (nearest
    first) and those ahead, and answers with the text left after the whole
    match, if the rest of the pattern matches. *)
Definition cont := text -> text -> option text.

(** Greedy repetition: take as many characters of [p] as possible, give
    them back one at a time while the continuation fails. *)
Fixpoint star_match (p : char -> bool) (k : cont) (behind ahead : text)
  : option text :=
  match ahead with
  | c :: ahead' =>
    if p c then
      match star_match p k (c :: behind) ahead' with
      | Some rest => Some rest
      | None => k behind ahead
      end
    else k behind ahead
  | [] => k behind ahead
  end.

(** A piece of a scanned text: [Gap c] is a character outside every match,
    [Hit m] a matched substring. *)
Inductive seg := Gap (c : char) | Hit (m : text).

Section Matching.
Context {UCD : Unicode}.

(** Whether the cursor is at a word boundary: exactly one of the two
    neighbours is a word character (a missing neighbour is not). *)
Definition at_boundary (behind ahead : text) : bool :=
  xorb (from_option is_word false (head behind))
       (from_option is_word false (head ahead)).

Fixpoint exec (r : regex) (k : cont) (behind ahead : text) : option text :=
  match r with
  | Eps => k behind ahead
  | Lit c =>
    match ahead with
    | c' :: ahead' => if chr_eqb c' c then k (c' :: behind) ahead' else None
    | [] => None
    end
  | Cls p =>
    match ahead with
    | c' :: ahead' => if p c' then k (c' :: behind) ahead' else None
    | [] => None
    end
  | Star p => star_match p k behind ahead
  | Cat r1 r2 => exec r1 (exec r2 k) behind ahead
  | Opt r1 =>
    match exec r1 k behind ahead with
    | Some rest => Some rest
    | None => k behind ahead
    end
  | NotBehind p =>
    match behind with
    | c :: _ => if p c then None else k behind ahead
    | [] => k behind ahead
    end
  | NotAhead p =>
    match ahead with
    | c :: _ => if p c then None else k behind ahead
    | [] => k behind ahead
    end
  | WordB => if at_boundary behind ahead then k behind ahead else None
  end.

(** [pattern.match] at the cursor: the number of characters matched. *)
Definition match_at (r : regex) (behind ahead : text) : option nat :=
  match exec r (fun _ rest => Some rest) behind ahead with
  | Some rest => Some (length ahead - length rest)%nat
  | None => None
  end.

(** The text cut at the successive non-overlapping matches, leftmost
    first.  The patterns of the program match at least one character; an
    empty match is passed over ([re.sub] would substitute it). *)
Fixpoint scan (r : regex) (skip : nat) (behind ahead : text) : list seg :=
  match ahead with
  | [] => []
  | c :: ahead' =>
    match skip with
    | S skip' => scan r skip' (c :: behind) ahead'
    | O =>
      match match_at r behind ahead with
      | Some (S n) => Hit (take (S n) ahead) :: scan r n (c :: behind) ahead'
      | _ => Gap c :: scan r 0 (c :: behind) ahead'
      end
    end
  end.

Definition finditer (r : regex) (s : text) : list seg := scan r 0 [] s.

(** [re.sub(pattern, repl, s)] with a function [repl], called once per
    match, from left to right. *)
Definition re_sub_with {S} (r : regex) (repl : text -> M S text) (s : text)
  : M S text :=
  parts <- mapM (fun sg => match sg with
                           | Gap c => ret [c]
                           | Hit m => repl m
                           end) (finditer r s) ;;
  ret (concat parts).

(** [re.sub(pattern, repl, s)] with a constant replacement [repl]
    (without backslashes). *)
Definition re_sub (r : regex) (repl : text) (s : text) : text :=
  concat (map (fun sg => match sg with
                         | Gap c => [c]
                         | Hit _ => repl
                         end) (finditer r s)).

(** [s.lstrip()] and [s.strip()] *)
Fixpoint lstrip (s : text) : text :=
  match s with
  | c :: s' => if isspace c then lstrip s' else s
  | [] => []
  end.
Definition strip (s : text) : text := rev (lstrip (rev (lstrip s))).
End Matching.

(** The text a piece stands for, and the text a list of pieces covers. *)
Definition seg_text (sg : seg) : text :=
  match sg with
  | Gap c => [c]
  | Hit m => m
  end.

Definition flatten (segs : list seg) : text := concat (map seg_text segs).

Definition is_gap (sg : seg) : bool :=
  match sg with
  | Gap _ => true
  | Hit _ => false
  end.

Section Meaning.
Context {UCD : Unicode}.

(** What a pattern means, read independently of the search:
    [sem r b a b' a'] says that [r] can take the cursor from the position
    with [b] behind and [a] ahead to the one with [b'] behind and [a']
    ahead. *)
Fixpoint sem (r : regex) (b a b' a' : text) : Prop :=
  match r with
  | Eps => b' = b /\ a' = a
  | Lit c => a = c :: a' /\ b' = c :: b
  | Cls p => exists c, p c = true /\ a = c :: a' /\ b' = c :: b
  | Star p => exists cs, Forall (fun c => p c = true) cs /\
                         a = cs ++ a' /\ b' = rev cs ++ b
  | Cat r1 r2 => exists b1 a1, sem r1 b a b1 a1 /\ sem r2 b1 a1 b' a'
  | Opt r1 => sem r1 b a b' a' \/ (b' = b /\ a' = a)
  | NotBehind p => (forall c, head b = Some c -> p c = false) /\
                   b' = b /\ a' = a
  | NotAhead p => (forall c, head a = Some c -> p c = false) /\
                  b' = b /\ a' = a
  | WordB => at_boundary b a = true /\ b' = b /\ a' = a
  end.

(** A numeric token: digits, optionally one separator and more digits. *)
Definition numeric_token (m : text) : Prop :=
  exists d1, d1 <> [] /\ Forall (fun c => isdecimal c = true) d1 /\
    (m = d1 \/
     exists sp d2, is_sep sp = true /\ d2 <> [] /\
                   Forall (fun c => isdecimal c = true) d2 /\
                   m = d1 ++ sp :: d2).

(** The occurrence of [m] between [pre] and [post] touches neither a [#]
    nor a word character. *)
Definition free_standing (pre post : text) : Prop :=
  (forall c, last pre = Some c -> is_hash_or_word c = false) /\
  (forall c, head post = Some c -> is_hash_or_word c = false).
End Meaning.

(** ** [str] operations *)

(** [s.startswith(key)] *)
Fixpoint starts_with (key s : text) : bool :=
  match key, s with
  | [], _ => true
  | _ :: _, [] => false
  | a :: key', b :: s' => chr_eqb a b && starts_with key' s'
  end.

(** [key in s] *)
Fixpoint contains (key s : text) : bool :=
  starts_with key s ||
  match s with
  | [] => false
  | _ :: s' => contains key s'
  end.

(** [s.replace(key, cand, 1)]: the leftmost occurrence of [key] replaced. *)
Fixpoint replace_first (key cand s : text) : text :=
  if starts_with key s then cand ++ drop (length key) s
  else match s with
       | [] => []
       | c :: s' => c :: replace_first key cand s'
       end.

(** [seq[k]] for a list: negative indices count from the end. *)
Definition py_getitem {A} (seq : list A) (k : Z) : exn + A :=
  let i := if 0 <=? k then k else Z.of_nat (length seq) + k in
  if i <? 0 then inl (IndexError (U "list index out of range"))
  else match seq !! Z.to_nat i with
       | Some x => inr x
       | None => inl (IndexError (U "list index out of range"))
       end.

(** ** The [random] module

    The generator (a Mersenne Twister in CPython) is a parameter: its
    state, the state [random.seed(a)] installs, one draw of
    [random.random()] and one draw of [_randbelow(n)], the source of
    [random.randrange]. *)
Class Generator := {
  gen : Type;
  gen_seed : Z -> gen;
  gen_random : gen -> float * gen;
  gen_randbelow : Z -> gen -> Z * gen
}.

(** What the [random] module documents of these draws: [random()] lies in
    [[0, 1)] and [_randbelow(n)] in [[0, n)]. *)
Class GeneratorLaws (RNG : Generator) : Prop := {
  random_lt_1 : forall g, fltb (fst (gen_random g)) fone = true;
  randbelow_range : forall n g, 0 < n -> 0 <= fst (gen_randbelow n g) < n
}.

Section Random.
Context {RNG : Generator}.

(** [random.random()] *)
Definition random : M gen float :=
  fun g => let (x, g') := gen_random g in (g', inr x).

(** [random.randrange(n)] *)
Definition randrange (n : Z) : M gen Z :=
  if 0 <? n
  then fun g => let (k, g') := gen_randbelow n g in (g', inr k)
  else raise (ValueError (U "empty range for randrange()")).

(** [random_choice(seq)] *)
Definition random_choice (seq : list text) : M gen text :=
  k <- randrange (Z.of_nat (length seq)) ;;
  lift (py_getitem seq k).
End Random.

(** ** Augmentation primitives *)

(** The dictionary, in insertion order. *)
Definition PHRASE_SYNONYMS : list (text * list text) :=
  Eval vm_compute in
  map (fun kv => (U (fst kv), map U (snd kv)))
  [ ("안녕하세요", ["안녕하십니까"; "안녕"; "반갑습니다"]);
    ("안녕", ["안녕하세요"; "안녕하십니까"]);
    ("감사합니다", ["고맙습니다"; "정말 감사합니다"; "감사해요"]);
    ("고맙습니다", ["감사합니다"; "감사해요"]);
    ("미안", ["죄송"; "미안해요"; "미안합니다"]);
    ("죄송", ["죄송합니다"; "정말 죄송합니다"; "미안합니다"]);
    ("의사 선생님", ["의사님"; "선생님"]);
    ("의사님", ["의사 선생님"; "선생님"]);
    ("병원", ["의원"; "병원"]);
    ("검진", ["건강검진"; "검사"]);
    ("백신", ["예방접종"; "접종"]);
    ("그런데", ["근데"; "하지만"]);
    ("하지만", ["그런데"; "근데"]);
    ("정말", ["진짜"; "아주"]) ]%string.

Definition FILLERS : list text :=
  Eval vm_compute in
  map U ["음"; "어"; "아"; "에"; "음..."; "으음"; "흠"]%string.

Definition NUM : text := Eval vm_compute in U "<NUM>".

(** What [mask_numbers] may do with a piece of the text: a character
    outside the matches stays, a match stays or becomes [<NUM>]. *)
Definition masked (sg : seg) (part : text) : Prop :=
  match sg with
  | Gap c => part = [c]
  | Hit m => part = NUM \/ part = m
  end.

(** [d[key]] for a dictionary kept as an association list. *)
Fixpoint dict_get {V} (d : list (text * V)) (key : text) : exn + V :=
  match d with
  | [] => inl (KeyError key)
  | (k, v) :: d' => if bool_decide (k = key) then inr v else dict_get d' key
  end.

(** [sorted(keys, key=len, reverse=True)]: longest first, keys of equal
    length in their original order (the sort is stable). *)
Fixpoint insert_by_len (x : text) (l : list text) : list text :=
  match l with
  | [] => [x]
  | y :: l' =>
    if (length x <? length y)%nat then y :: insert_by_len x l' else x :: l
  end.

Definition sorted_by_len_desc (l : list text) : list text :=
  foldr insert_by_len [] l.

Record AugmentConfig := {
  p_syn : float;
  p_mask_num : float;
  p_drop_filler : float;
  p_punct : float;
  seed : Z
}.

(** [AugmentConfig(seed=seed)]: the default probabilities
    0.3, 0.4, 0.5 and 0.2. *)
Definition f0_3 : float := Eval vm_compute in decimal 3 10.
Definition f0_4 : float := Eval vm_compute in decimal 4 10.
Definition f0_5 : float := Eval vm_compute in decimal 5 10.
Definition f0_2 : float := Eval vm_compute in decimal 2 10.

Definition default_config (seed : Z) : AugmentConfig :=
  {| p_syn := f0_3;
     p_mask_num := f0_4;
     p_drop_filler := f0_5;
     p_punct := f0_2;
     seed := seed |}.

Section Transforms.
Context {UCD : Unicode} {RNG : Generator}.

(** [_NUM_RE]: [(?<![#\w])\d+(?:[.,]\d+)?(?![#\w])] *)
Definition NUM_RE : regex :=
  Cat (NotBehind is_hash_or_word)
    (Cat (Plus isdecimal)
      (Cat (Opt (Cat (Cls is_sep) (Plus isdecimal)))
        (NotAhead is_hash_or_word))).

(** [rf"\b{re.escape(f)}[,. ]*"] *)
Definition filler_re (f : text) : regex :=
  Cat WordB (Cat (Lits f) (Star is_trail)).

(** [r"\s+"] *)
Definition SPACES_RE : regex := Plus isspace.

Definition replace_phrases (txt : text) (p_syn : float) : M gen text :=
  if fleb p_syn fzero then ret txt
  else
    let keys_sorted := sorted_by_len_desc (map fst PHRASE_SYNONYMS) in
    foldM (fun out key =>
             r <- random ;;
             if fltb r p_syn && contains key out then
               alts <- lift (dict_get PHRASE_SYNONYMS key) ;;
               cand <- random_choice alts ;;
               ret (replace_first key cand out)
             else ret out)
          keys_sorted txt.

Definition mask_numbers (txt : text) (p : float) : M gen text :=
  if fleb p fzero then ret txt
  else
    let _repl (m : text) : M gen text :=
      r <- random ;; ret (if fltb r p then NUM else m) in
    re_sub_with NUM_RE _repl txt.

(** The body of the loop of [drop_fillers], for the filler [f]. *)
Definition drop_step (p : float) (out f : text) : M gen text :=
  r <- random ;;
  ret (if fltb r p then re_sub (filler_re f) [] out else out).

Definition drop_fillers (txt : text) (p : float) : M gen text :=
  if fleb p fzero then ret txt
  else
    out <- foldM (drop_step p) FILLERS txt ;;
    ret (strip (re_sub SPACES_RE [c_space] out)).

Definition punct_jitter (txt : text) (p : float) : M gen text :=
  if fleb p fzero then ret txt
  else
    out_chars <-
      mapM (fun ch =>
              if chr_eqb ch c_quest || chr_eqb ch c_bang then
                r <- random ;;
                if fltb r p then
                  random_choice [[ch; ch]; [c_bang; c_quest];
                                 [c_quest; c_bang]; [ch]]
                else ret [ch]
              else if chr_eqb ch c_comma then
                r <- random ;;
                if fltb r p then
                  random_choice [[c_comma; c_space]; [c_comma];
                                 [c_semi; c_space]]
                else ret [ch]
              else ret [ch])
           txt ;;
    ret (concat out_chars).

Definition augment_dialogue (txt : text) (cfg : AugmentConfig) : M gen text :=
  out <- replace_phrases txt (p_syn cfg) ;;
  out <- mask_numbers out (p_mask_num cfg) ;;
  out <- drop_fillers out (p_drop_filler cfg) ;;
  out <- punct_jitter out (p_punct cfg) ;;
  ret out.
End Transforms.

(** [ensure_unique_fname(fname, idx)]: [f"{fname}_aug{idx}"] *)
Definition AUG : text := Eval vm_compute in U "_aug".

Definition ensure_unique_fname (fname : text) (idx : nat) : text :=
  fname ++ AUG ++ str_of_nat idx.

(** ** Data frames and the file system *)

(** A row maps a column name to its cell; an absent name is a missing
    value (NaN).  Cells are strings (columns of dtype [object]); how pandas
    parses and prints a CSV file is outside the model. *)
Record DataFrame := {
  columns : list text;
  rows : list (gmap text text)
}.

Definition c_fname : text := Eval vm_compute in U "fname".
Definition c_dialogue : text := Eval vm_compute in U "dialogue".
Definition c_summary : text := Eval vm_compute in U "summary".
Definition c_topic : text := Eval vm_compute in U "topic".

Definition required_cols : list text := [c_fname; c_dialogue; c_summary; c_topic].

Definition NAN_STR : text := Eval vm_compute in U "nan".

(** [str(cell)]: a string is itself, a missing value prints as [nan]. *)
Definition py_str (cell : option text) : text :=
  match cell with
  | Some s => s
  | None => NAN_STR
  end.

(** [d[key] = cell] while building a row: a missing value stays missing. *)
Definition put_cell (key : text) (cell : option text) (r : gmap text text)
  : gmap text text :=
  match cell with
  | Some v => <[key := v]> r
  | None => r
  end.

(** [df.head(limit)]: the first [limit] rows, or all but the last
    [-limit] for a negative [limit]. *)
Definition df_head (df : DataFrame) (limit : Z) : DataFrame :=
  {| columns := columns df;
     rows := if 0 <=? limit then take (Z.to_nat limit) (rows df)
             else take (length (rows df) - Z.to_nat (- limit)) (rows df) |}.

(** [pd.DataFrame(rows)] for rows with the four keys of [new_row]. *)
Definition df_of_rows (rs : list (gmap text text)) : DataFrame :=
  {| columns := required_cols; rows := rs |}.

(** [pd.concat([a, b], ignore_index=True)]: the columns of [a], then
    those only [b] has; the rows of [a], then those of [b]. *)
Definition df_concat (a b : DataFrame) : DataFrame :=
  {| columns := columns a ++
                filter (fun c => c ∉ columns a) (columns b);
     rows := rows a ++ rows b |}.

(** [enumerate(xs)] *)
Definition enumerate {A} (xs : list A) : list (nat * A) :=
  zip (seq 0 (length xs)) xs.

Section Run.
Context {UCD : Unicode} {RNG : Generator}.

(** What a run can touch: the files and the generator of the process. *)
Record World := {
  fs : gmap text DataFrame;
  rng : gen
}.

(** [random.seed(seed)] *)
Definition random_seed (a : Z) : M World unit :=
  fun w => ({| fs := fs w; rng := gen_seed a |}, inr tt).

(** A computation that only draws from the generator. *)
Definition with_rng {A} (m : M gen A) : M World A :=
  fun w => let (g', r) := m (rng w) in ({| fs := fs w; rng := g' |}, r).

(** [pd.read_csv(path)]: the frame stored at [path]; a missing file
    raises. *)
Definition read_csv (path : text) : M World DataFrame :=
  fun w => match fs w !! path with
           | Some df => (w, inr df)
           | None => (w, inl (FileNotFoundError path))
           end.

(** [df.to_csv(path, index=False)]: the frame replaces what [path] held
    (the path is taken to be writable). *)
Definition to_csv (df : DataFrame) (path : text) : M World unit :=
  fun w => ({| fs := <[path := df]> (fs w); rng := rng w |}, inr tt).

Definition missing_msg (c input_csv : text) : text :=
  U "Missing required column '" ++ c ++ U "' in " ++ input_csv.

(** The loop over [required_cols]: the first missing column raises. *)
Fixpoint check_columns (cols : list text) (df : DataFrame)
    (input_csv : text) : exn + unit :=
  match cols with
  | [] => inr tt
  | c :: cols' =>
    if bool_decide (c ∈ columns df) then check_columns cols' df input_csv
    else inl (ValueError (missing_msg c input_csv))
  end.

(** The body of the loop of [run_augment]: one synthetic row. *)
Definition make_row (df : DataFrame) (cfg : AugmentConfig)
    (i_src : nat * Z) : M gen (gmap text text) :=
  let (i, src_idx) := i_src in
  row <- lift (py_getitem (rows df) src_idx) ;;
  aug_dialogue <- augment_dialogue (py_str (row !! c_dialogue)) cfg ;;
  ret (<[c_fname := ensure_unique_fname (py_str (row !! c_fname)) i]>
       (<[c_dialogue := aug_dialogue]>
        (put_cell c_summary (row !! c_summary)
         (put_cell c_topic (row !! c_topic) ∅)))).

Definition run_augment (input_csv output_csv : text) (factor : float)
    (seed : Z) (limit : option Z) : M World (Z * Z) :=
  _ <- random_seed seed ;;
  df <- read_csv input_csv ;;
  _ <- lift (check_columns required_cols df input_csv) ;;
  let df := match limit with
            | Some l => df_head df l
            | None => df
            end in
  let cfg := default_config seed in
  let n := Z.of_nat (length (rows df)) in
  m <- lift (compute_aug_count n factor) ;;
  if m =? 0 then
    _ <- to_csv df output_csv ;;
    ret (n, 0)
  else
    sample_idx <- with_rng (mapM (fun _ => randrange n)
                                 (seq 0 (Z.to_nat m))) ;;
    rows_aug <- with_rng (mapM (make_row df cfg) (enumerate sample_idx)) ;;
    let df_aug := df_of_rows rows_aug in
    let df_out := df_concat df df_aug in
    _ <- to_csv df_out output_csv ;;
    ret (n, Z.of_nat (length (rows df_out))).
End Run.

(** ** Vocabulary of the statements on a run *)

(** The files after a run that wrote [written] (if anything) at [path]. *)
Definition store (path : text) (written : option DataFrame)
    (files : gmap text DataFrame) : gmap text DataFrame :=
  match written with
  | Some df => <[path := df]> files
  | None => files
  end.


Section RunVocabulary.
Context {UCD : Unicode} {RNG : Generator}.

(** [out] is an augmentation of [txt]: what [augment_dialogue] returns
    on it from some state of the generator. *)
Definition augmentation_of (cfg : AugmentConfig) (txt out : text) : Prop :=
  exists g g', augment_dialogue txt cfg g = (g', inr out).

(** [row] is the synthetic row number [i] made from the row at index [k]
    of [df]. *)
Definition synthetic (df : DataFrame) (cfg : AugmentConfig)
    (i_k : nat * Z) (row : gmap text text) : Prop :=
  exists src dlg,
    0 <= snd i_k < Z.of_nat (length (rows df)) /\
    rows df !! Z.to_nat (snd i_k) = Some src /\
    augmentation_of cfg (py_str (src !! c_dialogue)) dlg /\
    row = <[c_fname := ensure_unique_fname (py_str (src !! c_fname)) (fst i_k)]>
          (<[c_dialogue := dlg]>
           (put_cell c_summary (src !! c_summary)
            (put_cell c_topic (src !! c_topic) ∅))).
End RunVocabulary.

(** ** Concrete instances, for evaluation

    [basic_ucd] is the character database restricted to Basic Latin and the
    Hangul syllables (every other code point is classified as neither
    alphanumeric nor a digit; the white space list is complete); it agrees
    with the database on every text written with these two blocks and
    white space.  [lcg] is a small congruential generator. *)
Module Basic.
Definition in_range (lo hi c : N) : bool := ((lo <=? c) && (c <=? hi))%N.

Definition ascii_digit (c : char) : bool := in_range 48 57 c.

Definition alnum (c : char) : bool :=
  ascii_digit c || in_range 65 90 c || in_range 97 122 c
  || in_range 44032 55203 c.

Definition space (c : char) : bool :=
  (in_range 9 13 c || in_range 28 32 c || chr_eqb c 133 || chr_eqb c 160
   || chr_eqb c 5760 || in_range 8192 8202 c || in_range 8232 8233 c
   || chr_eqb c 8239 || chr_eqb c 8287 || chr_eqb c 12288)%N.

Definition step (x : Z) : Z :=
  (6364136223846793005 * x + 1442695040888963407) mod 2 ^ 64.

(** One of 0.0, 0.25, 0.5 and 0.75, chosen by the two high bits. *)
Definition quarter (x : Z) : float :=
  match x / 2 ^ 62 with
  | 0 => S754_zero false
  | 1 => S754_finite false 4503599627370496 (-54)
  | 2 => S754_finite false 4503599627370496 (-53)
  | _ => S754_finite false 6755399441055744 (-53)
  end.
End Basic.

Definition basic_ucd : Unicode :=
  {| isalnum := Basic.alnum;
     isdecimal := Basic.ascii_digit;
     isspace := Basic.space |}.

(** Two character databases classify [c] alike. *)
Definition same_classes (u1 u2 : Unicode) (c : char) : Prop :=
  @isalnum u1 c = @isalnum u2 c /\
  @isdecimal u1 c = @isdecimal u2 c /\
  @isspace u1 c = @isspace u2 c.

(** [c] is in Basic Latin or a Hangul syllable. *)
Definition basic_char (c : char) : bool :=
  ((c <? 128) || Basic.in_range 44032 55203 c)%N.

(** What the development uses of the Unicode character database: how it
    classifies Basic Latin and the Hangul syllables. *)
Class UnicodeLaws (UCD : Unicode) : Prop :=
  basic_classes : forall c, basic_char c = true -> same_classes UCD basic_ucd c.

Section Similar.
Variables u1 u2 : Unicode.

(** Two patterns of the same shape whose classes agree on the characters
    the two databases classify alike. *)
Inductive sim : regex -> regex -> Prop :=
| sim_Eps : sim Eps Eps
| sim_Lit c : sim (Lit c) (Lit c)
| sim_Cls p q :
    (forall c, same_classes u1 u2 c -> p c = q c) -> sim (Cls p) (Cls q)
| sim_Star p q :
    (forall c, same_classes u1 u2 c -> p c = q c) -> sim (Star p) (Star q)
| sim_Cat r1 r2 r1' r2' :
    sim r1 r1' -> sim r2 r2' -> sim (Cat r1 r2) (Cat r1' r2')
| sim_Opt r r' : sim r r' -> sim (Opt r) (Opt r')
| sim_NotBehind p q :
    (forall c, same_classes u1 u2 c -> p c = q c) ->
    sim (NotBehind p) (NotBehind q)
| sim_NotAhead p q :
    (forall c, same_classes u1 u2 c -> p c = q c) ->
    sim (NotAhead p) (NotAhead q)
| sim_WordB : sim WordB WordB.

(** Two continuations that agree at the positions of such texts. *)
Definition sim_cont (k1 k2 : cont) : Prop :=
  forall b a, Forall (same_classes u1 u2) b -> Forall (same_classes u1 u2) a ->
              k1 b a = k2 b a.
End Similar.

Definition lcg : Generator :=
  {| gen := Z;
     gen_seed := fun a => Z.abs a mod 2 ^ 64;
     gen_random := fun x => (Basic.quarter (Basic.step x), Basic.step x);
     gen_randbelow := fun n x => ((Basic.step x / 2 ^ 33) mod n, Basic.step x) |}.

(** The example of the specification for number masking, and the result
    expected for it. *)
Definition tagged_example : text :=
  Eval vm_compute in U "#Person1# 제 나이는 30 살입니다".
Definition tagged_expected : text :=
  Eval vm_compute in U "#Person1# 제 나이는 <NUM> 살입니다".

(** A small data set: two rows, the identifier of the second being the
    first one's followed by [_aug0], in the file [in.csv]. *)
Module Example.
Definition mkrow (id dlg : text) : gmap text text :=
  <[c_fname := id]>
  (<[c_dialogue := dlg]>
   (<[c_summary := U "a summary"]> (<[c_topic := U "a topic"]> ∅))).

Definition df2 : DataFrame :=
  {| columns := required_cols;
     rows := [mkrow (U "a") (U "#Person1#: 30 ?");
              mkrow (U "a_aug0") (U "#Person2#: 음, 40")] |}.

Definition input : text := U "in.csv".
Definition output : text := U "out.csv".

Definition files : gmap text DataFrame := {[ input := df2 ]}.

(** A world over the generator [lcg]. *)
Definition world_of (files : gmap text DataFrame) (g : Z)
  : World (RNG := lcg) := @Build_World lcg files g.

Definition world (g : Z) : World (RNG := lcg) := world_of files g.

(** A frame without the [topic] column. *)
Definition df_no_topic : DataFrame :=
  {| columns := [c_fname; c_dialogue; c_summary];
     rows := [] |}.

(** A frame with the four columns and no row. *)
Definition df_empty : DataFrame := {| columns := required_cols; rows := [] |}.


(** The same input file next to another file. *)
Definition more_files : gmap text DataFrame :=
  <[U "other.csv" := df_empty]> files.

(** One row whose dialogue field is empty in the file: [read_csv] gives a
    missing value for it. *)
Definition df_missing : DataFrame :=
  {| columns := required_cols;
     rows := [<[c_fname := U "a"]>
              (<[c_summary := U "a summary"]>
               (<[c_topic := U "a topic"]> ∅))] |}.
End Example.

(** ** Vocabulary of the further properties *)

(** The length of the longest prefix of [s] made of characters of [p]. *)
Fixpoint run_length (p : char -> bool) (s : text) : nat :=
  match s with
  | c :: s' => if p c then S (run_length p s') else O
  | [] => O
  end.

(** [s] with every maximal run of characters of [p] replaced by the one
    character [sp]; [in_run] tells that the character before belonged to
    a run already replaced. *)
Fixpoint squeeze (p : char -> bool) (sp : char) (in_run : bool) (s : text)
  : text :=
  match s with
  | [] => []
  | c :: s' =>
    if p c then
      if in_run then squeeze p sp true s' else sp :: squeeze p sp true s'
    else c :: squeeze p sp false s'
  end.

(** What [punct_jitter] may put in the place of the character [c]. *)
Definition jittered (c : char) (part : text) : Prop :=
  if chr_eqb c c_quest || chr_eqb c c_bang then
    In part [[c; c]; [c_bang; c_quest]; [c_quest; c_bang]; [c]]
  else if chr_eqb c c_comma then
    In part [[c_comma; c_space]; [c_comma]; [c_semi; c_space]]
  else part = [c].

(** The characters of [s] that [keep] selects, in their order. *)
Definition kept (keep : char -> bool) (s : text) : text := List.filter keep s.

(** No character of [s] is selected by [keep]. *)
Definition none_kept (keep : char -> bool) (s : text) : Prop :=
  Forall (fun c => keep c = false) s.

Section Shapes.
Context {UCD : Unicode}.

(** [keep] selects none of the characters the transforms act on: digits,
    white space, the punctuation [, . ? ! ;], the space, the characters of
    [<NUM>], of the lexicon and of the filler list. *)
Definition untouched (keep : char -> bool) : Prop :=
  (forall c, isdecimal c = true -> keep c = false) /\
  (forall c, isspace c = true -> keep c = false) /\
  none_kept keep [c_comma; c_dot; c_space; c_quest; c_bang; c_semi] /\
  none_kept keep NUM /\
  Forall (fun kv => none_kept keep (fst kv) /\
                    Forall (none_kept keep) (snd kv)) PHRASE_SYNONYMS /\
  Forall (none_kept keep) FILLERS.

(** Every white space character of [s] is the plain space U+0020. *)
Definition plain_spaces (s : text) : Prop :=
  Forall (fun c => isspace c = true -> c = c_space) s.

(** No two white space characters of [s] are adjacent. *)
Definition no_space_pair (s : text) : Prop :=
  forall (i : nat) c d, s !! i = Some c -> s !! S i = Some d ->
                        isspace c = true -> isspace d = false.

(** [s] neither begins nor ends with white space. *)
Definition trimmed (s : text) : Prop :=
  (forall c, head s = Some c -> isspace c = false) /\
  (forall c, last s = Some c -> isspace c = false).

(** The three together, checked in one pass: a white space character is
    the plain space and does not follow white space ([prev] says that the
    character before was white space, or that the text starts here). *)
Fixpoint single_spaced (prev : bool) (s : text) : bool :=
  match s with
  | [] => true
  | c :: s' =>
    if isspace c
    then negb prev && chr_eqb c c_space && single_spaced true s'
    else single_spaced false s'
  end.
End Shapes.

(** A character of Basic Latin that the transforms have no business with:
    not a digit, not white space, none of [, . ? ! ;] and none of the
    characters of [<NUM>]. *)
Definition latin_mark (c : char) : bool :=
  ((c <? 128) && negb (Basic.ascii_digit c) && negb (Basic.space c)
   && negb (existsb (N.eqb c) [44; 46; 63; 33; 59; 60; 78; 85; 77; 62]))%N.

(** A character that is neither white space nor the plain space. *)
Definition solid {UCD : Unicode} (c : char) : bool :=
  negb (isspace c) && negb (chr_eqb c c_space).

(** One replacement of the lexicon: the leftmost occurrence of a key gives
    way to one of the alternatives of that key. *)
Definition lex_step (s s' : text) : Prop :=
  exists key alts cand pre post,
    In (key, alts) PHRASE_SYNONYMS /\ In cand alts /\
    s = pre ++ key ++ post /\ s' = pre ++ cand ++ post /\
    (forall pre' post', s = pre' ++ key ++ post' ->
                        (length pre <= length pre')%nat).

(** ** Tactics *)

(** A decidable statement on closed terms, settled by evaluation. *)
Ltac by_evaluation := apply (bool_decide_unpack _); vm_compute; reflexivity.

(** * Theorems *)

(** ** The sampling policy *)

Example U_hangul : U "음식" = [51020%N; 49885%N].
Proof. reflexivity. Qed.

Example decimal_tenth : decimal 1 10 = S754_finite false 7205759403792794 (-56).
Proof. reflexivity. Qed.

Lemma round_half_even_nearest (num den : Z) :
  0 < den ->
  2 * Z.abs (num - round_half_even num den * den) <= den /\
  (2 * Z.abs (num - round_half_even num den * den) = den ->
   Z.even (round_half_even num den) = true).
Proof.
  intros Hden. unfold round_half_even.
  pose proof (Z.div_mod num den ltac:(lia)) as Hdm.
  pose proof (Z.mod_pos_bound num den Hden) as Hb.
  set (q := num / den) in *. set (r := num mod den) in *.
  destruct (Z.compare_spec (2 * r) den) as [Heq | Hlt | Hgt].
  - destruct (Z.even q) eqn:Hev.
    + split; [lia | auto].
    + split; [lia | intros _].
      rewrite Z.even_add, Hev. reflexivity.
  - split; lia.
  - split; lia.
Qed.

(** [round] returns an integer nearest to the value of its argument, the
    even one when two are equally near. *)
Lemma py_round_nearest (x : float) (r : Z) :
  py_round x = inr r -> nearest_even (F2Q x) r.
Proof.
  destruct x as [s | s | | s m e]; simpl; try discriminate.
  - intros [= <-]. split; discriminate.
  - destruct (0 <=? e) eqn:He; intros [= <-].
    + split; unfold Qminus; rewrite Qplus_opp_r; discriminate.
    + apply Z.leb_gt in He.
      assert (Hpow : 0 < 2 ^ (- e)) by (apply Z.pow_pos_nonneg; lia).
      destruct (round_half_even_nearest (cond_Zopp s (Z.pos m)) (2 ^ (- e)) Hpow)
        as [Hle Htie].
      set (num := cond_Zopp s (Z.pos m)) in *.
      set (rr := round_half_even num (2 ^ (- e))) in *.
      assert (Hd : Z.pos (Z.to_pos (2 ^ (- e))) = 2 ^ (- e))
        by (apply Z2Pos.id; lia).
      unfold nearest_even, Qminus, Qplus, Qopp, inject_Z, Qabs, Qle, Qeq.
      cbn [Qnum Qden].
      rewrite !Pos.mul_1_r, Hd.
      split; [lia | intros H; apply Htie; lia].
Qed.

Lemma py_round_finite (x : float) :
  is_finite x = true -> exists r, py_round x = inr r.
Proof.
  destruct x as [s | s | | s m e]; simpl; try discriminate; intros _.
  - eauto.
  - destruct (0 <=? e); eauto.
Qed.

Lemma py_round_not_finite (x : float) :
  is_finite x = false -> exists e, py_round x = inl e.
Proof.
  destruct x as [s | s | | s m e]; simpl; try discriminate; eauto.
Qed.

(** C3, as the code has it: [compute_aug_count n factor] is 0 when
    [factor <= 0]; otherwise, when the float product [n * factor] is finite,
    it is [max(1, round(n * factor))], [round] taking the integer nearest to
    the product and the even one on a tie; when the product is an infinity
    or NaN it raises.  It is 5 at (10, 0.5), 1 at (3, 0.1) and 0 at
    (100, 0). *)
Theorem compute_aug_count_spec (n : Z) (factor : float) :
  0 <= n ->
  (fleb factor fzero = true -> compute_aug_count n factor = inr 0) /\
  (forall nf, float_of_int n = inr nf -> fleb factor fzero = false ->
     (is_finite (fmul nf factor) = true ->
      exists r, compute_aug_count n factor = inr (Z.max 1 r) /\
                nearest_even (F2Q (fmul nf factor)) r) /\
     (is_finite (fmul nf factor) = false ->
      exists e, compute_aug_count n factor = inl e)) /\
  compute_aug_count 10 (decimal 5 10) = inr 5 /\
  compute_aug_count 3 (decimal 1 10) = inr 1 /\
  compute_aug_count 100 fzero = inr 0.
Proof.
  intros _. split; [| split].
  - intros Hle. unfold compute_aug_count. rewrite Hle. reflexivity.
  - intros nf Hnf Hpos. unfold compute_aug_count. rewrite Hpos, Hnf. split.
    + intros Hfin. destruct (py_round_finite _ Hfin) as [r Hr].
      exists r. rewrite Hr. split; [reflexivity |].
      apply py_round_nearest, Hr.
    + intros Hinf. destruct (py_round_not_finite _ Hinf) as [e He].
      exists e. rewrite He. reflexivity.
  - repeat split; reflexivity.
Qed.

Lemma compute_aug_count_spec_witness :
  0 <= 25 /\
  exists r,
    compute_aug_count 25 (decimal 1 10) = inr (Z.max 1 r) /\
    nearest_even
      (F2Q (fmul (S754_finite false 7036874417766400 (-48)) (decimal 1 10))) r.
Proof.
  split; [lia |].
  destruct (compute_aug_count_spec 25 (decimal 1 10)) as (_ & H & _); [lia |].
  destruct (H (S754_finite false 7036874417766400 (-48)) eq_refl eq_refl)
    as [Hfin _].
  exact (Hfin eq_refl).
Defined.

(** C3 as stated fails where the product overflows: [float_max] is a
    positive factor, [10 * float_max] is the infinity, and [round] raises
    on it. *)
Lemma compute_aug_count_overflow :
  fleb float_max fzero = false /\
  compute_aug_count 10 float_max
  = inl (OverflowError (U "cannot convert float infinity to integer")).
Proof. split; reflexivity. Qed.

(** ** The matcher *)

Section RegexFacts.
Context {UCD : Unicode}.

Lemma star_match_sound p (k : cont) :
  forall a b rest,
    star_match p k b a = Some rest ->
    exists cs a', Forall (fun c => p c = true) cs /\ a = cs ++ a' /\
                  k (rev cs ++ b) a' = Some rest.
Proof.
  induction a as [| c a IH]; intros b rest H; simpl in H.
  - exists [], []. auto.
  - destruct (p c) eqn:Hp.
    + destruct (star_match p k (c :: b) a) as [rest' |] eqn:Hs.
      * injection H as <-.
        destruct (IH _ _ Hs) as (cs & a' & Hcs & -> & Hk).
        exists (c :: cs), a'. split; [constructor; auto |].
        split; [reflexivity |].
        simpl. rewrite <- app_assoc. exact Hk.
      * exists [], (c :: a). auto.
    + exists [], (c :: a). auto.
Qed.

Lemma exec_sound r :
  forall (k : cont) b a rest,
    exec r k b a = Some rest ->
    exists b' a', sem r b a b' a' /\ k b' a' = Some rest.
Proof.
  induction r as [| c | p | p | r1 IH1 r2 IH2 | r1 IH1 | p | p |];
    intros k b a rest H; simpl in H.
  - exists b, a. simpl. auto.
  - destruct a as [| c' a]; [discriminate |].
    destruct (chr_eqb c' c) eqn:Hc; [| discriminate].
    apply N.eqb_eq in Hc. subst c'.
    exists (c :: b), a. simpl. auto.
  - destruct a as [| c' a]; [discriminate |].
    destruct (p c') eqn:Hp; [| discriminate].
    exists (c' :: b), a. simpl. eauto.
  - destruct (star_match_sound _ _ _ _ _ H) as (cs & a' & Hcs & -> & Hk).
    exists (rev cs ++ b), a'. simpl. eauto.
  - destruct (IH1 _ _ _ _ H) as (b1 & a1 & H1 & Hk1).
    destruct (IH2 _ _ _ _ Hk1) as (b2 & a2 & H2 & Hk2).
    exists b2, a2. simpl. eauto.
  - destruct (exec r1 k b a) as [rest' |] eqn:He.
    + injection H as <-.
      destruct (IH1 _ _ _ _ He) as (b1 & a1 & H1 & Hk1).
      exists b1, a1. simpl. auto.
    + exists b, a. simpl. auto.
  - exists b, a. simpl. destruct b as [| c b'].
    + split; [| exact H]. split; [| auto]. intros c [=].
    + destruct (p c) eqn:Hp; [discriminate |].
      split; [| exact H]. split; [| auto]. intros c' [= <-]. exact Hp.
  - exists b, a. simpl. destruct a as [| c a'].
    + split; [| exact H]. split; [| auto]. intros c [=].
    + destruct (p c) eqn:Hp; [discriminate |].
      split; [| exact H]. split; [| auto]. intros c' [= <-]. exact Hp.
  - destruct (at_boundary b a) eqn:Hb; [| discriminate].
    exists b, a. simpl. auto.
Qed.

Lemma sem_consumes r :
  forall b a b' a', sem r b a b' a' ->
    exists cs, a = cs ++ a' /\ b' = rev cs ++ b.
Proof.
  induction r as [| c | p | p | r1 IH1 r2 IH2 | r1 IH1 | p | p |];
    intros b a b' a' H; simpl in H.
  - destruct H as [-> ->]. exists []. auto.
  - destruct H as [-> ->]. exists [c]. auto.
  - destruct H as (c & _ & -> & ->). exists [c]. auto.
  - destruct H as (cs & _ & -> & ->). exists cs. auto.
  - destruct H as (b1 & a1 & H1 & H2).
    destruct (IH1 _ _ _ _ H1) as (cs1 & -> & ->).
    destruct (IH2 _ _ _ _ H2) as (cs2 & -> & ->).
    exists (cs1 ++ cs2). rewrite rev_app_distr, <- !app_assoc. auto.
  - destruct H as [H | [-> ->]].
    + eauto.
    + exists []. auto.
  - destruct H as (_ & -> & ->). exists []. auto.
  - destruct H as (_ & -> & ->). exists []. auto.
  - destruct H as (_ & -> & ->). exists []. auto.
Qed.

Lemma match_at_sound r b a n :
  match_at r b a = Some n ->
  exists cs a', a = cs ++ a' /\ n = length cs /\ sem r b a (rev cs ++ b) a'.
Proof.
  unfold match_at. intros H.
  destruct (exec r (fun _ rest => Some rest) b a) as [rest |] eqn:He;
    [| discriminate].
  injection H as <-.
  destruct (exec_sound _ _ _ _ _ He) as (b' & a' & Hs & [= ->]).
  destruct (sem_consumes _ _ _ _ _ Hs) as (cs & -> & ->).
  exists cs, rest. split; [reflexivity |]. split; [| exact Hs].
  rewrite length_app. lia.
Qed.

Lemma match_at_le r b a n : match_at r b a = Some n -> (n <= length a)%nat.
Proof.
  unfold match_at.
  destruct (exec r (fun _ rest => Some rest) b a); [| discriminate].
  intros [= <-]. lia.
Qed.

Lemma flatten_cons sg segs : flatten (sg :: segs) = seg_text sg ++ flatten segs.
Proof. reflexivity. Qed.

Lemma flatten_app s1 s2 : flatten (s1 ++ s2) = flatten s1 ++ flatten s2.
Proof. unfold flatten. rewrite map_app, concat_app. reflexivity. Qed.

Lemma flatten_scan r :
  forall a skip b, (skip <= length a)%nat ->
    flatten (scan r skip b a) = drop skip a.
Proof.
  induction a as [| c a IH]; intros skip b Hskip; simpl in *.
  - destruct skip; [reflexivity | lia].
  - destruct skip as [| skip].
    + destruct (match_at r b (c :: a)) as [[| n] |] eqn:Hm.
      * rewrite flatten_cons, IH by lia. reflexivity.
      * pose proof (match_at_le _ _ _ _ Hm) as Hle. simpl in Hle.
        rewrite flatten_cons, IH by lia. simpl.
        rewrite take_drop. reflexivity.
      * rewrite flatten_cons, IH by lia. reflexivity.
    + rewrite IH by lia. reflexivity.
Qed.

Lemma flatten_finditer r s : flatten (finditer r s) = s.
Proof. unfold finditer. rewrite flatten_scan by lia. reflexivity. Qed.

Lemma scan_hit_step r c pre m post b skip s1 :
  m <> [] ->
  match_at r (rev pre ++ c :: b) (m ++ post) = Some (length m) ->
  s1 = drop skip (c :: pre) ->
  (skip <= S (length pre))%nat ->
  c :: pre ++ m ++ post = (c :: pre) ++ m ++ post /\ m <> [] /\
  match_at r (rev (c :: pre) ++ b) (m ++ post) = Some (length m) /\
  post = post /\ s1 = drop skip (c :: pre) /\
  (skip <= length (c :: pre))%nat.
Proof.
  intros Hne Hm Hs Hle. simpl rev. rewrite <- app_assoc. simpl.
  repeat split; auto.
Qed.

Lemma scan_hit r :
  forall a skip b segs1 m segs2,
    (skip <= length a)%nat ->
    scan r skip b a = segs1 ++ Hit m :: segs2 ->
    exists pre post,
      a = pre ++ m ++ post /\ m <> [] /\
      match_at r (rev pre ++ b) (m ++ post) = Some (length m) /\
      flatten segs2 = post /\ flatten segs1 = drop skip pre /\
      (skip <= length pre)%nat.
Proof.
  induction a as [| c a IH]; intros skip b segs1 m segs2 Hskip H;
    simpl in H.
  - destruct segs1; discriminate.
  - destruct skip as [| skip].
    + destruct (match_at r b (c :: a)) as [[| n] |] eqn:Hm.
      * destruct segs1 as [| sg segs1]; [discriminate |].
        injection H as <- H.
        destruct (IH 0%nat _ _ _ _ ltac:(simpl in *; lia) H)
          as (pre & post & -> & Hne & Hma & <- & Hpre & _).
        exists (c :: pre), (flatten segs2).
        apply scan_hit_step; [exact Hne | exact Hma | | simpl; lia].
        rewrite flatten_cons, Hpre. reflexivity.
      * pose proof (match_at_le _ _ _ _ Hm) as Hle. simpl in Hle.
        destruct segs1 as [| sg segs1].
        -- injection H as <- <-.
           exists [], (drop n a). simpl.
           rewrite take_drop.
           split; [reflexivity |]. split; [discriminate |].
           split; [| split; [| split; [reflexivity | lia]]].
           ++ rewrite Hm. simpl. rewrite length_take. f_equal. lia.
           ++ apply flatten_scan. lia.
        -- injection H as <- H.
           destruct (IH n _ _ _ _ ltac:(simpl in *; lia) H)
             as (pre & post & -> & Hne & Hma & <- & Hpre & Hn).
           exists (c :: pre), (flatten segs2).
           apply scan_hit_step; [exact Hne | exact Hma | | simpl; lia].
           rewrite flatten_cons, Hpre. simpl.
           rewrite take_app_le by lia.
           rewrite take_drop. reflexivity.
      * destruct segs1 as [| sg segs1]; [discriminate |].
        injection H as <- H.
        destruct (IH 0%nat _ _ _ _ ltac:(simpl in *; lia) H)
          as (pre & post & -> & Hne & Hma & <- & Hpre & _).
        exists (c :: pre), (flatten segs2).
        apply scan_hit_step; [exact Hne | exact Hma | | simpl; lia].
        rewrite flatten_cons, Hpre. reflexivity.
    + destruct (IH skip _ _ _ _ ltac:(simpl in *; lia) H)
        as (pre & post & -> & Hne & Hma & <- & Hpre & Hn).
      exists (c :: pre), (flatten segs2).
      apply scan_hit_step; [exact Hne | exact Hma | exact Hpre | simpl; lia].
Qed.
End RegexFacts.

Section NumFacts.
Context {UCD : Unicode}.

Lemma head_rev_last {A} (l : list A) : head (rev l) = last l.
Proof.
  induction l as [| x l IH] using rev_ind; [reflexivity |].
  rewrite rev_app_distr, last_snoc. reflexivity.
Qed.

Lemma sem_plus p b a b' a' :
  sem (Plus p) b a b' a' ->
  exists ds, ds <> [] /\ Forall (fun c => p c = true) ds /\
             a = ds ++ a' /\ b' = rev ds ++ b.
Proof.
  simpl. intros (b1 & a1 & (c & Hc & -> & ->) & (cs & Hcs & -> & ->)).
  exists (c :: cs). split; [discriminate |]. split; [constructor; auto |].
  split; [reflexivity |]. simpl. rewrite <- app_assoc. reflexivity.
Qed.

Lemma num_re_sem b a b' a' :
  sem NUM_RE b a b' a' ->
  (forall c, head b = Some c -> is_hash_or_word c = false) /\
  (forall c, head a' = Some c -> is_hash_or_word c = false) /\
  exists m, a = m ++ a' /\ numeric_token m.
Proof.
  unfold NUM_RE. cbn [sem].
  intros (b1 & a1 & (Hbehind & -> & ->) & b2 & a2 & Hd1 & b3 & a3 & Hopt
          & Hahead & -> & ->).
  apply sem_plus in Hd1. destruct Hd1 as (d1 & Hne1 & Hall1 & -> & ->).
  split; [exact Hbehind |]. split; [exact Hahead |].
  destruct Hopt as [(b4 & a4 & (sp & Hsp & -> & ->) & Hd2) | [-> ->]].
  - apply sem_plus in Hd2. destruct Hd2 as (d2 & Hne2 & Hall2 & -> & _).
    exists (d1 ++ sp :: d2). split.
    + rewrite <- app_assoc. reflexivity.
    + exists d1. split; [exact Hne1 |]. split; [exact Hall1 |].
      right. exists sp, d2. auto.
  - exists d1. split; [reflexivity |].
    exists d1. auto.
Qed.

(** Every match of [_NUM_RE] in a text is a numeric token that touches
    neither a [#] nor a word character. *)
Lemma num_hits_free_standing txt segs1 m segs2 :
  finditer NUM_RE txt = segs1 ++ Hit m :: segs2 ->
  txt = flatten segs1 ++ m ++ flatten segs2 /\
  free_standing (flatten segs1) (flatten segs2) /\
  numeric_token m.
Proof.
  intros H. unfold finditer in H.
  destruct (scan_hit NUM_RE txt 0%nat [] _ _ _ ltac:(lia) H)
    as (pre & post & -> & Hne & Hma & <- & Hpre & _).
  rewrite drop_0 in Hpre. subst pre.
  split; [reflexivity |].
  destruct (match_at_sound _ _ _ _ Hma) as (cs & a' & Heq & Hlen & Hsem).
  apply app_inj_1 in Heq; [| exact Hlen]. destruct Heq as [<- <-].
  apply num_re_sem in Hsem.
  destruct Hsem as (Hb & Ha & m' & Heq & Htok).
  apply app_inv_tail in Heq. subst m'.
  split; [| exact Htok].
  split; [| exact Ha].
  intros c Hc. apply Hb. rewrite app_nil_r, head_rev_last. exact Hc.
Qed.
End NumFacts.

Section NonEmpty.
Context {UCD : Unicode}.

Lemma sem_Lits f b a b' a' : sem (Lits f) b a b' a' -> a = f ++ a'.
Proof.
  revert b a. induction f as [| c f IH]; intros b a; simpl.
  - intros [_ ->]. reflexivity.
  - intros (b1 & a1 & [-> ->] & H). apply IH in H. rewrite H. reflexivity.
Qed.

Lemma numeric_token_nonempty m : numeric_token m -> m <> [].
Proof.
  intros (d1 & Hne & _ & [-> | (sp & d2 & _ & _ & _ & ->)]); [exact Hne |].
  destruct d1; [congruence | discriminate].
Qed.

(** The three patterns of the program never match the empty string, so
    [scan] never meets the empty match it passes over. *)
Lemma patterns_never_empty b a :
  match_at NUM_RE b a <> Some 0%nat /\
  match_at SPACES_RE b a <> Some 0%nat /\
  forall f, f <> [] -> match_at (filler_re f) b a <> Some 0%nat.
Proof.
  split; [| split].
  - intros H. destruct (match_at_sound _ _ _ _ H) as (cs & a' & -> & Hlen & Hs).
    destruct cs; [| discriminate].
    apply num_re_sem in Hs. destruct Hs as (_ & _ & m & Heq & Htok).
    apply numeric_token_nonempty in Htok.
    apply (f_equal (@length char)) in Heq. rewrite !length_app in Heq.
    simpl in Heq. destruct m; [congruence | simpl in Heq; lia].
  - intros H. destruct (match_at_sound _ _ _ _ H) as (cs & a' & -> & Hlen & Hs).
    destruct cs; [| discriminate].
    apply sem_plus in Hs. destruct Hs as (ds & Hne & _ & Heq & _).
    apply (f_equal (@length char)) in Heq. rewrite !length_app in Heq.
    simpl in Heq. destruct ds; [congruence | simpl in Heq; lia].
  - intros f Hf H.
    destruct (match_at_sound _ _ _ _ H) as (cs & a' & -> & Hlen & Hs).
    destruct cs; [| discriminate].
    simpl in Hs. destruct Hs as (b1 & a1 & (_ & -> & ->) & b2 & a2 & Hl & Hst).
    apply sem_Lits in Hl. destruct Hst as (ts & _ & -> & _).
    apply (f_equal (@length char)) in Hl. rewrite !length_app in Hl.
    simpl in Hl. destruct f; [congruence | simpl in Hl; lia].
Qed.
End NonEmpty.

(** ** The monad *)

Section MonadFacts.
Context {S : Type}.

Lemma returns_ret {A} (a : A) (P : A -> Prop) : P a -> returns (S:=S) (ret a) P.
Proof. intros H s. exists s, a. auto. Qed.

Lemma returns_bind {A B} (m : M S A) (k : A -> M S B) P Q :
  returns m P -> (forall a, P a -> returns (k a) Q) ->
  returns (a <- m ;; k a) Q.
Proof.
  intros Hm Hk s. destruct (Hm s) as (s1 & a & E1 & Ha).
  destruct (Hk a Ha s1) as (s2 & b & E2 & Hb).
  exists s2, b. unfold bind. rewrite E1. auto.
Qed.

Lemma returns_weaken {A} (m : M S A) (P Q : A -> Prop) :
  returns m P -> (forall a, P a -> Q a) -> returns m Q.
Proof.
  intros Hm HPQ s. destruct (Hm s) as (s1 & a & E1 & Ha). eauto.
Qed.

Lemma returns_lift {A} (r : exn + A) (a : A) (P : A -> Prop) :
  r = inr a -> P a -> returns (S:=S) (lift r) P.
Proof. intros -> H s. exists s, a. auto. Qed.

Lemma returns_mapM {A B} (f : A -> M S B) (R : A -> B -> Prop) xs :
  (forall x, In x xs -> returns (f x) (R x)) ->
  returns (mapM f xs) (Forall2 R xs).
Proof.
  induction xs as [| x xs IH]; intros Hf; simpl.
  - apply returns_ret. constructor.
  - eapply returns_bind; [apply Hf; left; reflexivity |].
    intros y Hy. eapply returns_bind; [apply IH; intros; apply Hf; right; auto |].
    intros ys Hys. apply returns_ret. constructor; auto.
Qed.

(** A loop that returns went through one state per element: [ss] lists
    the states between the calls. *)
Lemma mapM_chain {A B} (f : A -> M S B) xs s s' ys :
  mapM f xs s = (s', inr ys) ->
  exists ss : list S,
    length ss = Datatypes.S (length xs) /\
    ss !! 0%nat = Some s /\ ss !! (length xs) = Some s' /\
    length ys = length xs /\
    forall (i : nat) x y, xs !! i = Some x -> ys !! i = Some y ->
      exists sa sb,
        ss !! i = Some sa /\ ss !! (Datatypes.S i) = Some sb /\
        f x sa = (sb, inr y).
Proof.
  revert s ys. induction xs as [| x xs IH]; intros s ys; simpl.
  - unfold ret. intros [= <- <-]. exists [s].
    repeat split. intros i x y Hx. discriminate.
  - unfold bind at 1. destruct (f x s) as [s1 [e | y]] eqn:E1; [discriminate |].
    unfold bind at 1.
    destruct (mapM f xs s1) as [s2 [e | ys']] eqn:E2; [discriminate |].
    unfold ret. intros [= <- <-].
    destruct (IH s1 ys' E2) as (ss & Hlen & H0 & Hlast & Hys & Hstep).
    exists (s :: ss). simpl.
    split; [lia |]. split; [reflexivity |]. split; [exact Hlast |].
    split; [lia |].
    intros [| i] x' y' Hx Hy; simpl in Hx, Hy.
    + injection Hx as <-. injection Hy as <-.
      exists s, s1. simpl. auto.
    + destruct (Hstep i x' y' Hx Hy) as (sa & sb & Ha & Hb & Hf).
      exists sa, sb. simpl. auto.
Qed.

Lemma returns_foldM {A B} (f : B -> A -> M S B) (I : B -> Prop) xs :
  (forall acc x, In x xs -> I acc -> returns (f acc x) I) ->
  forall acc, I acc -> returns (foldM f xs acc) I.
Proof.
  induction xs as [| x xs IH]; intros Hf acc Hacc; simpl.
  - apply returns_ret. exact Hacc.
  - eapply returns_bind; [apply Hf; [left; reflexivity | exact Hacc] |].
    intros acc' Hacc'. apply IH; [| exact Hacc'].
    intros; apply Hf; [right |]; auto.
Qed.
Lemma bind_apply {St A B} (m : M St A) (k : A -> M St B) (s : St) :
  (a <- m ;; k a) s
  = match m s with
    | (s', inr a) => k a s'
    | (s', inl e) => (s', inl e)
    end.
Proof. reflexivity. Qed.

Lemma foldM_cons {St A B} (f : B -> A -> M St B) x xs acc (s : St) :
  foldM f (x :: xs) acc s
  = match f acc x s with
    | (s', inr a) => foldM f xs a s'
    | (s', inl e) => (s', inl e)
    end.
Proof. reflexivity. Qed.
End MonadFacts.

Section RandomFacts.
Context {RNG : Generator}.

Lemma returns_random : returns random (fun _ => True).
Proof.
  intros g. unfold random. destruct (gen_random g) as [x g'] eqn:E.
  exists g', x. auto.
Qed.

Context {LAWS : GeneratorLaws RNG}.

Lemma returns_random_lt_1 : returns random (fun r => fltb r fone = true).
Proof.
  intros g. unfold random. pose proof (random_lt_1 g) as H.
  destruct (gen_random g) as [x g'] eqn:E. exists g', x. auto.
Qed.

Lemma returns_randrange n :
  0 < n -> returns (randrange n) (fun k => 0 <= k < n).
Proof.
  intros Hn g. unfold randrange.
  destruct (0 <? n) eqn:E; [| apply Z.ltb_ge in E; lia].
  pose proof (randbelow_range n g Hn) as H.
  destruct (gen_randbelow n g) as [k g']. exists g', k. auto.
Qed.

Lemma py_getitem_in_range {A} (seq : list A) k :
  0 <= k < Z.of_nat (length seq) ->
  exists x, py_getitem seq k = inr x /\ seq !! Z.to_nat k = Some x.
Proof.
  intros Hk. unfold py_getitem.
  destruct (0 <=? k) eqn:E; [| apply Z.leb_gt in E; lia].
  destruct (k <? 0) eqn:E'; [apply Z.ltb_lt in E'; lia |].
  destruct (lookup_lt_is_Some_2 seq (Z.to_nat k) ltac:(lia)) as [x Hx].
  exists x. rewrite Hx. auto.
Qed.

Lemma returns_random_choice (seq : list text) :
  seq <> [] -> returns (random_choice seq) (fun x => In x seq).
Proof.
  intros Hne. unfold random_choice.
  eapply returns_bind.
  - apply returns_randrange. destruct seq; [congruence | simpl; lia].
  - intros k Hk. destruct (py_getitem_in_range seq k Hk) as (x & E & Hx).
    eapply returns_lift; [exact E |].
    apply list_elem_of_In. eapply list_elem_of_lookup_2. exact Hx.
Qed.
End RandomFacts.

Section MaskFacts.
Context {UCD : Unicode} {RNG : Generator}.

Lemma Forall2_seg_text segs : Forall2 masked segs (map seg_text segs).
Proof.
  induction segs as [| [c | m] segs IH]; constructor; simpl; auto.
Qed.

Lemma mask_numbers_pieces txt p :
  returns (mask_numbers txt p)
    (fun out => exists parts,
         out = concat parts /\ Forall2 masked (finditer NUM_RE txt) parts).
Proof.
  unfold mask_numbers. destruct (fleb p fzero).
  - apply returns_ret. exists (map seg_text (finditer NUM_RE txt)).
    split; [| apply Forall2_seg_text].
    symmetry. apply flatten_finditer.
  - unfold re_sub_with. eapply returns_bind.
    + apply (returns_mapM _ masked). intros [c | m] _.
      * apply returns_ret. reflexivity.
      * eapply returns_bind; [apply returns_random |].
        intros r _. apply returns_ret. simpl.
        destruct (fltb r p); auto.
    + intros parts Hparts. apply returns_ret. eauto.
Qed.

Context {LAWS : GeneratorLaws RNG}.

(** At [p = 1] every match is masked. *)
Lemma mask_numbers_always txt :
  returns (mask_numbers txt fone) (fun out => out = re_sub NUM_RE NUM txt).
Proof.
  unfold mask_numbers. change (fleb fone fzero) with false. cbv iota.
  unfold re_sub_with, re_sub. eapply returns_bind.
  - apply (returns_mapM _ (fun sg part =>
             part = match sg with Gap c => [c] | Hit _ => NUM end)).
    intros [c | m] _.
    + apply returns_ret. reflexivity.
    + eapply returns_bind; [apply returns_random_lt_1 |].
      intros r Hr. apply returns_ret. rewrite Hr. reflexivity.
  - intros parts Hparts. apply returns_ret. f_equal.
    induction Hparts as [| sg part segs parts -> _ IH]; simpl; congruence.
Qed.
End MaskFacts.

(** ** The transforms *)

Lemma pos_not_le (p : float) : fltb fzero p = true -> fleb p fzero = false.
Proof. destruct p as [[] | [] | | [] m e]; cbn; congruence. Qed.

Lemma lcg_laws : GeneratorLaws lcg.
Proof.
  split.
  - intros g. cbn. unfold Basic.quarter.
    destruct (Basic.step g / 2 ^ 62) as [| [[] | [] |] |]; reflexivity.
  - intros n g Hn. cbn. apply Z.mod_pos_bound. exact Hn.
Qed.

Section SubFacts.
Context {UCD : Unicode}.

(** A pattern that matches nowhere leaves the text as it is. *)
Lemma all_gaps_flatten segs (f : seg -> text) :
  forallb is_gap segs = true ->
  (forall c, f (Gap c) = [c]) ->
  concat (map f segs) = flatten segs.
Proof.
  intros Hg Hf. induction segs as [| [c | m] segs IH]; simpl in *.
  - reflexivity.
  - rewrite Hf, IH by exact Hg. reflexivity.
  - discriminate.
Qed.

Lemma re_sub_no_match r repl s :
  forallb is_gap (finditer r s) = true -> re_sub r repl s = s.
Proof.
  intros Hg. unfold re_sub.
  rewrite (all_gaps_flatten _ _ Hg) by reflexivity.
  apply flatten_finditer.
Qed.

Lemma scan_plus_none p :
  forall a b, Forall (fun c => p c = false) a ->
    scan (Plus p) 0 b a = map Gap a.
Proof.
  induction a as [| c a IH]; intros b Ha; [reflexivity |].
  inversion Ha as [| ? ? Hc Ha']; subst.
  simpl. unfold match_at. simpl. rewrite Hc. rewrite IH by exact Ha'.
  reflexivity.
Qed.

Lemma lstrip_none s :
  (forall c, head s = Some c -> isspace c = false) -> lstrip s = s.
Proof.
  destruct s as [| c s]; [reflexivity |]. intros H. simpl.
  rewrite (H c eq_refl). reflexivity.
Qed.

(** The white space pass of [drop_fillers] changes nothing in a text
    without white space. *)
Lemma normalize_no_space s :
  Forall (fun c => isspace c = false) s ->
  strip (re_sub SPACES_RE [c_space] s) = s.
Proof.
  intros Hs.
  assert (Hsub : re_sub SPACES_RE [c_space] s = s).
  { apply re_sub_no_match. unfold finditer, SPACES_RE.
    rewrite scan_plus_none by exact Hs.
    clear. induction s; simpl; auto. }
  rewrite Hsub. unfold strip.
  rewrite List.Forall_forall in Hs.
  assert (H1 : lstrip s = s).
  { apply lstrip_none. intros c Hc. apply Hs.
    destruct s; [discriminate |]. injection Hc as ->. left. reflexivity. }
  assert (H2 : lstrip (rev s) = rev s).
  { apply lstrip_none. intros c Hc. apply Hs, in_rev.
    destruct (rev s); [discriminate |]. injection Hc as ->. left. reflexivity. }
  rewrite H1, H2. apply rev_involutive.
Qed.
End SubFacts.

Section TransformFacts.
Context {UCD : Unicode} {RNG : Generator}.

(** *** Nothing to act on *)

Lemma replace_phrases_no_key txt p :
  (forall key, In key (map fst PHRASE_SYNONYMS) -> contains key txt = false) ->
  returns (replace_phrases txt p) (fun out => out = txt).
Proof.
  intros Hno. unfold replace_phrases. destruct (fleb p fzero).
  - apply returns_ret. reflexivity.
  - apply (returns_foldM _ (fun out => out = txt)); [| reflexivity].
    intros acc key Hkey ->.
    eapply returns_bind; [apply returns_random |].
    intros r _. rewrite Hno.
    + rewrite andb_false_r. apply returns_ret. reflexivity.
    + revert Hkey. generalize (map fst PHRASE_SYNONYMS). clear.
      intros l. unfold sorted_by_len_desc.
      induction l as [| x l IH]; simpl; [auto |].
      intros H.
      assert (Hins : forall y l', In key (insert_by_len y l') ->
                                  key = y \/ In key l').
      { clear. intros y l'. induction l' as [| z l' IH]; simpl.
        - intros [-> | []]. auto.
        - destruct (length y <? length z)%nat; simpl; intuition. }
      apply Hins in H. destruct H as [-> | H]; auto.
Qed.

Lemma mask_numbers_no_match txt p :
  forallb is_gap (finditer NUM_RE txt) = true ->
  returns (mask_numbers txt p) (fun out => out = txt).
Proof.
  intros Hg. eapply returns_weaken; [apply mask_numbers_pieces |].
  intros out (parts & -> & Hparts).
  transitivity (flatten (finditer NUM_RE txt)); [| apply flatten_finditer].
  revert Hg Hparts. generalize (finditer NUM_RE txt). intros segs Hg Hparts.
  induction Hparts as [| [c | m] part segs parts Hm _ IH]; simpl in *.
  - reflexivity.
  - subst part. rewrite IH by exact Hg. reflexivity.
  - discriminate.
Qed.

Lemma drop_fillers_no_filler txt p :
  fleb p fzero = false ->
  (forall f, In f FILLERS -> forallb is_gap (finditer (filler_re f) txt) = true) ->
  returns (drop_fillers txt p)
          (fun out => out = strip (re_sub SPACES_RE [c_space] txt)).
Proof.
  intros Hp Hno. unfold drop_fillers. rewrite Hp.
  eapply returns_bind.
  - apply (returns_foldM _ (fun out => out = txt)); [| reflexivity].
    intros acc f Hf ->. unfold drop_step.
    eapply returns_bind; [apply returns_random |].
    intros r _. apply returns_ret.
    destruct (fltb r p); [| reflexivity].
    apply re_sub_no_match, Hno, Hf.
  - intros out ->. apply returns_ret. reflexivity.
Qed.

Lemma punct_jitter_no_punct txt p :
  forallb (fun c => negb (is_punct c)) txt = true ->
  returns (punct_jitter txt p) (fun out => out = txt).
Proof.
  intros Hno. unfold punct_jitter. destruct (fleb p fzero).
  - apply returns_ret. reflexivity.
  - eapply returns_bind.
    + apply (returns_mapM _ (fun c part => part = [c])).
      intros c Hc.
      rewrite forallb_forall in Hno. specialize (Hno c Hc).
      unfold is_punct in Hno.
      destruct (chr_eqb c c_quest), (chr_eqb c c_bang), (chr_eqb c c_comma);
        try discriminate.
      simpl. apply returns_ret. reflexivity.
    + intros parts Hparts. apply returns_ret. clear - Hparts.
      induction Hparts as [| c part cs parts -> _ IH]; simpl; congruence.
Qed.

(** *** Totality *)
Context {LAWS : GeneratorLaws RNG}.

Lemma synonyms_found :
  Forall (fun key => exists alts,
              dict_get PHRASE_SYNONYMS key = inr alts /\ alts <> [])
         (sorted_by_len_desc (map fst PHRASE_SYNONYMS)).
Proof.
  vm_compute sorted_by_len_desc.
  repeat (constructor; [eexists; split; [vm_compute; reflexivity | discriminate] |]).
  constructor.
Qed.

Lemma replace_phrases_total txt p :
  returns (replace_phrases txt p) (fun _ => True).
Proof.
  unfold replace_phrases. destruct (fleb p fzero).
  - apply returns_ret. exact I.
  - apply (returns_foldM _ (fun _ => True)); [| exact I].
    intros acc key Hkey _.
    eapply returns_bind; [apply returns_random |].
    intros r _. destruct (fltb r p && contains key acc).
    + pose proof synonyms_found as Hall. rewrite List.Forall_forall in Hall.
      destruct (Hall key Hkey) as (alts & E & Hne).
      eapply returns_bind;
        [apply (returns_lift _ alts (fun a => a <> [])); [exact E | exact Hne] |].
      intros alts' Hne'. eapply returns_bind;
        [apply returns_random_choice; exact Hne' |].
      intros cand _. apply returns_ret. exact I.
    + apply returns_ret. exact I.
Qed.

Lemma mask_numbers_total txt p : returns (mask_numbers txt p) (fun _ => True).
Proof.
  eapply returns_weaken; [apply mask_numbers_pieces | auto].
Qed.

Lemma drop_fillers_total txt p : returns (drop_fillers txt p) (fun _ => True).
Proof.
  unfold drop_fillers. destruct (fleb p fzero).
  - apply returns_ret. exact I.
  - eapply returns_bind.
    + apply (returns_foldM _ (fun _ => True)); [| exact I].
      intros acc f _ _. unfold drop_step.
      eapply returns_bind; [apply returns_random |].
      intros r _. apply returns_ret. exact I.
    + intros out _. apply returns_ret. exact I.
Qed.

Lemma punct_jitter_total txt p : returns (punct_jitter txt p) (fun _ => True).
Proof.
  unfold punct_jitter. destruct (fleb p fzero).
  - apply returns_ret. exact I.
  - eapply returns_bind.
    + apply (returns_mapM _ (fun _ _ => True)). intros c _.
      destruct (chr_eqb c c_quest || chr_eqb c c_bang).
      * eapply returns_bind; [apply returns_random |].
        intros r _. destruct (fltb r p).
        -- eapply returns_weaken;
             [apply returns_random_choice; discriminate | auto].
        -- apply returns_ret. exact I.
      * destruct (chr_eqb c c_comma).
        -- eapply returns_bind; [apply returns_random |].
           intros r _. destruct (fltb r p).
           ++ eapply returns_weaken;
                [apply returns_random_choice; discriminate | auto].
           ++ apply returns_ret. exact I.
        -- apply returns_ret. exact I.
    + intros parts _. apply returns_ret. exact I.
Qed.

Lemma augment_dialogue_total txt cfg :
  returns (augment_dialogue txt cfg) (fun _ => True).
Proof.
  unfold augment_dialogue.
  eapply returns_bind; [apply replace_phrases_total |]. intros o1 _.
  eapply returns_bind; [apply mask_numbers_total |]. intros o2 _.
  eapply returns_bind; [apply drop_fillers_total |]. intros o3 _.
  eapply returns_bind; [apply punct_jitter_total |]. intros o4 _.
  apply returns_ret. exact I.
Qed.

(** *** Every trial succeeds at [p = 1] *)

Lemma drop_fillers_always txt :
  returns (drop_fillers txt fone)
    (fun out => out = strip (re_sub SPACES_RE [c_space]
                  (fold_left (fun out f => re_sub (filler_re f) [] out)
                             FILLERS txt))).
Proof.
  unfold drop_fillers. change (fleb fone fzero) with false. cbv iota.
  eapply returns_bind.
  - instantiate (1 := fun out =>
      out = fold_left (fun out f => re_sub (filler_re f) [] out) FILLERS txt).
    generalize FILLERS. intros fs. revert txt.
    induction fs as [| f fs IH]; intros txt; simpl.
    + apply returns_ret. reflexivity.
    + unfold drop_step at 1.
      eapply returns_bind; [eapply returns_bind;
        [apply returns_random_lt_1 |] |].
      * intros r Hr. apply returns_ret. rewrite Hr.
        instantiate (1 := fun o => o = re_sub (filler_re f) [] txt).
        reflexivity.
      * intros acc ->. apply IH.
  - intros out ->. apply returns_ret. reflexivity.
Qed.
End TransformFacts.

(** ** Independence of the characters that do not occur *)

Section Agreement.
Variables u1 u2 : Unicode.

Let S : char -> Prop := same_classes u1 u2.

Lemma star_match_sim p q k1 k2 :
  (forall c, S c -> p c = q c) -> sim_cont u1 u2 k1 k2 ->
  sim_cont u1 u2 (star_match p k1) (star_match q k2).
Proof.
  intros Hpq Hk b a Hb Ha. revert b Hb.
  induction Ha as [| c a Hc Ha IH]; intros b Hb; simpl.
  - apply Hk; auto.
  - rewrite (Hpq c Hc). destruct (q c).
    + rewrite IH by (constructor; auto).
      rewrite (Hk b (c :: a)) by (auto; constructor; auto). reflexivity.
    + apply Hk; auto.
Qed.

Lemma is_word_sim c : S c -> @is_word u1 c = @is_word u2 c.
Proof. intros (Ha & _ & _). unfold is_word. rewrite Ha. reflexivity. Qed.

Lemma at_boundary_sim b a :
  Forall S b -> Forall S a -> @at_boundary u1 b a = @at_boundary u2 b a.
Proof.
  intros Hb Ha. unfold at_boundary. f_equal.
  - destruct Hb as [| c b Hc _]; simpl; [reflexivity | apply is_word_sim, Hc].
  - destruct Ha as [| c a Hc _]; simpl; [reflexivity | apply is_word_sim, Hc].
Qed.

Lemma exec_sim r r' :
  sim u1 u2 r r' -> forall k1 k2, sim_cont u1 u2 k1 k2 ->
  sim_cont u1 u2 (@exec u1 r k1) (@exec u2 r' k2).
Proof.
  induction 1 as [| c | p q Hpq | p q Hpq | r1 r2 r1' r2' _ IH1 _ IH2
                  | r r' _ IH | p q Hpq | p q Hpq |];
    intros k1 k2 Hk b a Hb Ha; simpl.
  - apply Hk; auto.
  - destruct Ha as [| c' a Hc' Ha]; [reflexivity |].
    destruct (chr_eqb c' c); [apply Hk; auto | reflexivity].
  - destruct Ha as [| c' a Hc' Ha]; [reflexivity |].
    rewrite (Hpq c' Hc'). destruct (q c'); [apply Hk; auto | reflexivity].
  - apply star_match_sim; auto.
  - apply IH1; auto.
  - rewrite (IH k1 k2 Hk b a Hb Ha), (Hk b a Hb Ha). reflexivity.
  - destruct Hb as [| c b Hc Hb]; [apply Hk; auto |].
    rewrite (Hpq c Hc). destruct (q c); [reflexivity | apply Hk; auto].
  - destruct Ha as [| c a Hc Ha]; [apply Hk; auto |].
    rewrite (Hpq c Hc). destruct (q c); [reflexivity | apply Hk; auto].
  - rewrite (at_boundary_sim b a Hb Ha).
    destruct (at_boundary b a); [apply Hk; auto | reflexivity].
Qed.

Lemma match_at_sim r r' b a :
  sim u1 u2 r r' -> Forall S b -> Forall S a ->
  @match_at u1 r b a = @match_at u2 r' b a.
Proof.
  intros Hr Hb Ha. unfold match_at.
  rewrite (exec_sim r r' Hr _ (fun _ rest => Some rest)); auto.
  intros ? ? _ _. reflexivity.
Qed.

Lemma scan_sim r r' :
  sim u1 u2 r r' -> forall a skip b, Forall S a -> Forall S b ->
  @scan u1 r skip b a = @scan u2 r' skip b a.
Proof.
  intros Hr a. induction a as [| c a IH]; intros skip b Ha Hb; simpl.
  - reflexivity.
  - inversion Ha as [| ? ? Hc Ha']; subst.
    destruct skip as [| skip].
    + rewrite (match_at_sim r r' b (c :: a) Hr Hb Ha).
      destruct (match_at r' b (c :: a)) as [[| n] |];
        rewrite IH by auto; reflexivity.
    + apply IH; auto.
Qed.

Lemma finditer_sim r r' s :
  sim u1 u2 r r' -> Forall S s -> @finditer u1 r s = @finditer u2 r' s.
Proof. intros Hr Hs. apply scan_sim; auto. Qed.

Lemma re_sub_sim r r' repl s :
  sim u1 u2 r r' -> Forall S s -> @re_sub u1 r repl s = @re_sub u2 r' repl s.
Proof.
  intros Hr Hs. unfold re_sub. rewrite (finditer_sim r r' s Hr Hs).
  reflexivity.
Qed.

Lemma sim_Plus p q : (forall c, S c -> p c = q c) -> sim u1 u2 (Plus p) (Plus q).
Proof. intros H. unfold Plus. repeat constructor; auto. Qed.

Lemma sim_NUM_RE : sim u1 u2 (@NUM_RE u1) (@NUM_RE u2).
Proof.
  assert (Hd : forall c, S c -> @isdecimal u1 c = @isdecimal u2 c)
    by (intros c (_ & H & _); exact H).
  assert (Hw : forall c, S c -> @is_hash_or_word u1 c = @is_hash_or_word u2 c).
  { intros c Hc. unfold is_hash_or_word. rewrite (is_word_sim c Hc).
    reflexivity. }
  unfold NUM_RE. repeat (constructor || apply sim_Plus); auto.
Qed.

Lemma sim_refl r : sim u1 u2 r r.
Proof. induction r; constructor; auto. Qed.

Lemma sim_SPACES_RE : sim u1 u2 (@SPACES_RE u1) (@SPACES_RE u2).
Proof.
  unfold SPACES_RE. apply sim_Plus. intros c (_ & _ & H). exact H.
Qed.

Lemma lstrip_sim s : Forall S s -> @lstrip u1 s = @lstrip u2 s.
Proof.
  induction 1 as [| c s (_ & _ & Hc) _ IH]; simpl; [reflexivity |].
  rewrite Hc, IH. reflexivity.
Qed.

Lemma lstrip_chars (u : Unicode) s : Forall S s -> Forall S (@lstrip u s).
Proof.
  induction 1 as [| c s Hc Hs IH]; simpl; [constructor |].
  destruct (isspace c); [exact IH | constructor; auto].
Qed.

Lemma strip_sim s : Forall S s -> @strip u1 s = @strip u2 s.
Proof.
  intros Hs. unfold strip. rewrite (lstrip_sim s Hs).
  rewrite lstrip_sim; [reflexivity |].
  apply List.Forall_rev, lstrip_chars, Hs.
Qed.

(** The characters of a substituted text come from the text and from the
    replacement. *)
Lemma scan_chars (u : Unicode) r repl :
  Forall S repl ->
  forall a skip b, Forall S a ->
    Forall S (concat (map (fun sg => match sg with
                                     | Gap c => [c]
                                     | Hit _ => repl
                                     end) (@scan u r skip b a))).
Proof.
  intros Hrepl a. induction a as [| c a IH]; intros skip b Ha; simpl.
  - constructor.
  - inversion Ha as [| ? ? Hc Ha']; subst.
    destruct skip as [| skip]; [| apply IH; auto].
    destruct (match_at r b (c :: a)) as [[| n] |]; simpl.
    + constructor; auto.
    + apply Forall_app. auto.
    + constructor; auto.
Qed.

Lemma re_sub_chars (u : Unicode) r repl s :
  Forall S repl -> Forall S s -> Forall S (@re_sub u r repl s).
Proof. intros Hrepl Hs. apply scan_chars; auto. Qed.

Context {RNG : Generator}.

Lemma mask_numbers_sim txt p :
  Forall S txt -> @mask_numbers u1 RNG txt p = @mask_numbers u2 RNG txt p.
Proof.
  intros Htxt. unfold mask_numbers, re_sub_with.
  rewrite (finditer_sim _ _ txt sim_NUM_RE Htxt). reflexivity.
Qed.

Lemma drop_step_eq (u : Unicode) p acc f g :
  @drop_step u RNG p acc f g
  = (snd (gen_random g),
     inr (if fltb (fst (gen_random g)) p
          then @re_sub u (filler_re f) [] acc else acc)).
Proof.
  unfold drop_step, bind, random, ret.
  destruct (gen_random g) as [r g1]. reflexivity.
Qed.

Lemma drop_loop_sim p fillers :
  forall acc g, Forall S acc ->
    foldM (@drop_step u1 RNG p) fillers acc g
    = foldM (@drop_step u2 RNG p) fillers acc g /\
    forall g' out,
      foldM (@drop_step u2 RNG p) fillers acc g = (g', inr out) ->
      Forall S out.
Proof.
  induction fillers as [| f fillers IH]; intros acc g Hacc.
  - split; [reflexivity |]. simpl. unfold ret.
    intros g' out [= <- <-]. exact Hacc.
  - rewrite !foldM_cons, !drop_step_eq.
    rewrite (re_sub_sim (filler_re f) (filler_re f) [] acc
               (sim_refl _) Hacc).
    apply IH. destruct (fltb _ p); [| exact Hacc].
    apply re_sub_chars; [constructor | exact Hacc].
Qed.

Lemma drop_fillers_sim txt p g :
  S c_space -> Forall S txt ->
  @drop_fillers u1 RNG txt p g = @drop_fillers u2 RNG txt p g.
Proof.
  intros Hsp Htxt. unfold drop_fillers.
  destruct (fleb p fzero); [reflexivity |].
  rewrite !bind_apply.
  destruct (drop_loop_sim p FILLERS txt g Htxt) as [Heq Hchars].
  rewrite Heq.
  destruct (foldM (@drop_step u2 RNG p) FILLERS txt g)
    as [g' [e | out]] eqn:E; [reflexivity |].
  specialize (Hchars g' out eq_refl). unfold ret.
  rewrite (re_sub_sim _ _ [c_space] out sim_SPACES_RE Hchars).
  rewrite strip_sim; [reflexivity |].
  apply re_sub_chars; [constructor; [exact Hsp | constructor] | exact Hchars].
Qed.
End Agreement.

Lemma basic_ucd_laws : UnicodeLaws basic_ucd.
Proof. intros c _. repeat split. Qed.

Lemma laws_agree (UCD : Unicode) (s : text) :
  UnicodeLaws UCD -> forallb basic_char s = true ->
  Forall (same_classes UCD basic_ucd) s.
Proof.
  intros L Hs. apply List.Forall_forall. intros c Hc.
  apply basic_classes. rewrite forallb_forall in Hs. apply Hs, Hc.
Qed.

(** ** The claims on the transforms *)

(** C6: [mask_numbers] copies the text outside the matches of [_NUM_RE] and
    turns a match into [<NUM>] or leaves it; every match is a numeric token
    whose neighbours in the text are neither [#] nor word characters, so a
    digit sequence next to one is never replaced, whatever [p] is.  On
    ["#Person1# 제 나이는 30 살입니다"] with [p = 1] the result is
    ["#Person1# 제 나이는 <NUM> 살입니다"], for every character database
    that classifies Basic Latin and Hangul as Unicode does and every
    generator whose [random()] stays below 1. *)
Theorem mask_numbers_spares_tags :
  (forall (UCD : Unicode) (RNG : Generator) (txt : text) (p : float),
      returns (mask_numbers txt p)
        (fun out => exists parts,
             out = concat parts /\
             Forall2 masked (finditer NUM_RE txt) parts)) /\
  (forall (UCD : Unicode) (txt : text) segs1 m segs2,
      finditer NUM_RE txt = segs1 ++ Hit m :: segs2 ->
      txt = flatten segs1 ++ m ++ flatten segs2 /\
      free_standing (flatten segs1) (flatten segs2) /\
      numeric_token m) /\
  (forall (UCD : Unicode) (RNG : Generator),
      UnicodeLaws UCD -> GeneratorLaws RNG ->
      returns (mask_numbers tagged_example fone)
              (fun out => out = tagged_expected)).
Proof.
  split; [| split].
  - intros. apply mask_numbers_pieces.
  - intros. apply num_hits_free_standing. assumption.
  - intros UCD RNG ULAWS LAWS.
    rewrite (mask_numbers_sim UCD basic_ucd tagged_example fone
               (laws_agree UCD tagged_example ULAWS eq_refl)).
    eapply returns_weaken; [apply mask_numbers_always |].
    intros out ->. vm_compute. reflexivity.
Qed.

Lemma mask_numbers_spares_tags_witness :
  free_standing (UCD := basic_ucd)
    (U "#Person1# 제 나이는 ") (U " 살입니다") /\
  returns (mask_numbers (UCD := basic_ucd) (RNG := lcg) tagged_example fone)
          (fun out => out = tagged_expected).
Proof.
  destruct mask_numbers_spares_tags as (_ & Hfree & Hex).
  split.
  - refine (proj1 (proj2 (Hfree basic_ucd tagged_example
             (map Gap (U "#Person1# 제 나이는 ")) (U "30")
             (map Gap (U " 살입니다")) _))).
    vm_compute. reflexivity.
  - apply (Hex basic_ucd lcg basic_ucd_laws lcg_laws).
Defined.

(** C5 at its failing input: the word 음식 (food) begins with the filler
    음, and when the trials succeed ([p = 1]) [drop_fillers] removes that
    part of the word and returns 식. *)
Theorem drop_fillers_removes_word_prefix (UCD : Unicode) (RNG : Generator) :
  UnicodeLaws UCD -> GeneratorLaws RNG ->
  returns (drop_fillers (U "음식") fone) (fun out => out = U "식").
Proof.
  intros ULAWS LAWS g.
  rewrite (drop_fillers_sim UCD basic_ucd (U "음식") fone g
             (basic_classes c_space eq_refl)
             (laws_agree UCD (U "음식") ULAWS eq_refl)).
  revert g. eapply returns_weaken; [apply drop_fillers_always |].
  intros out ->. vm_compute. reflexivity.
Qed.

Lemma drop_fillers_removes_word_prefix_witness :
  returns (drop_fillers (UCD := basic_ucd) (RNG := lcg) (U "음식") fone)
          (fun out => out = U "식").
Proof.
  apply (drop_fillers_removes_word_prefix basic_ucd lcg basic_ucd_laws lcg_laws).
Defined.

(** C7, as the code has it: the four transforms never raise, on any text
    and any [p]; for [p > 0], [replace_phrases], [mask_numbers] and
    [punct_jitter] return the text unchanged when it holds no lexicon key,
    no numeric match, none of [?], [!] and [,]; [drop_fillers] on a text
    without filler occurrence returns the text with every run of white
    space replaced by one space and the white space at both ends removed,
    which is the text itself when it has no white space. *)
Theorem transforms_total_idle (UCD : Unicode) (RNG : Generator)
    (txt : text) (p : float) :
  GeneratorLaws RNG ->
  (returns (replace_phrases txt p) (fun _ => True) /\
   returns (mask_numbers txt p) (fun _ => True) /\
   returns (drop_fillers txt p) (fun _ => True) /\
   returns (punct_jitter txt p) (fun _ => True)) /\
  (fltb fzero p = true ->
   ((forall key, In key (map fst PHRASE_SYNONYMS) -> contains key txt = false) ->
    returns (replace_phrases txt p) (fun out => out = txt)) /\
   (forallb is_gap (finditer NUM_RE txt) = true ->
    returns (mask_numbers txt p) (fun out => out = txt)) /\
   (forallb (fun c => negb (is_punct c)) txt = true ->
    returns (punct_jitter txt p) (fun out => out = txt)) /\
   ((forall f, In f FILLERS ->
               forallb is_gap (finditer (filler_re f) txt) = true) ->
    returns (drop_fillers txt p)
            (fun out => out = strip (re_sub SPACES_RE [c_space] txt)) /\
    (Forall (fun c => isspace c = false) txt ->
     returns (drop_fillers txt p) (fun out => out = txt)))).
Proof.
  intros LAWS. split.
  - repeat split.
    + apply replace_phrases_total.
    + apply mask_numbers_total.
    + apply drop_fillers_total.
    + apply punct_jitter_total.
  - intros Hp. apply pos_not_le in Hp.
    split; [| split; [| split]].
    + apply replace_phrases_no_key.
    + apply mask_numbers_no_match.
    + apply punct_jitter_no_punct.
    + intros Hno. split.
      * apply drop_fillers_no_filler; assumption.
      * intros Hsp. eapply returns_weaken;
          [apply drop_fillers_no_filler; assumption |].
        intros out ->. apply normalize_no_space. exact Hsp.
Qed.

Lemma transforms_total_idle_witness :
  returns (drop_fillers (UCD := basic_ucd) (RNG := lcg) [] f0_5)
          (fun out => out = []) /\
  returns (drop_fillers (UCD := basic_ucd) (RNG := lcg) (U "a  b") f0_5)
          (fun out => out = U "a b").
Proof.
  split.
  - destruct (transforms_total_idle basic_ucd lcg [] f0_5 lcg_laws)
      as (_ & H).
    destruct (H eq_refl) as (_ & _ & _ & Hd).
    refine (proj2 (Hd _) _).
    + intros f Hf. reflexivity.
    + constructor.
  - destruct (transforms_total_idle basic_ucd lcg (U "a  b") f0_5 lcg_laws)
      as (_ & H).
    destruct (H eq_refl) as (_ & _ & _ & Hd).
    refine (proj1 (Hd _)).
    intros f Hf.
    repeat (destruct Hf as [<- | Hf]; [vm_compute; reflexivity |]).
    destruct Hf.
Defined.

(** C7 as stated fails for [drop_fillers]: ["a  b"] holds no filler, yet
    with [p = 0.5] the two spaces come back as one. *)
Lemma drop_fillers_changes_spacing :
  fltb fzero f0_5 = true /\
  forallb (fun f => forallb is_gap
                      (finditer (UCD := basic_ucd) (filler_re f) (U "a  b")))
          FILLERS = true /\
  snd (drop_fillers (UCD := basic_ucd) (RNG := lcg) (U "a  b") f0_5 (gen_seed 42))
  = inr (U "a b") /\
  U "a b" <> U "a  b".
Proof. vm_compute. repeat split; discriminate. Qed.

(** ** Identifiers *)

Lemma uint_text_digits d : Forall is_digit (uint_text d).
Proof.
  induction d; simpl; constructor; auto; unfold is_digit; lia.
Qed.

Lemma uint_text_inj d d' : uint_text d = uint_text d' -> d = d'.
Proof.
  revert d'. induction d; intros d' H; destruct d'; simpl in H;
    try discriminate; try reflexivity;
    injection H as H; f_equal; auto.
Qed.

Lemma str_of_nat_inj i j : str_of_nat i = str_of_nat j -> i = j.
Proof.
  unfold str_of_nat. intros H.
  apply DecimalNat.Unsigned.to_uint_inj, uint_text_inj, H.
Qed.

(** A text is cut in one way only at its last occurrence of [g]. *)
Lemma last_occurrence_unique (g : char) :
  forall x x' d d',
    ~ In g d -> ~ In g d' ->
    x ++ g :: d = x' ++ g :: d' -> x = x' /\ d = d'.
Proof.
  induction x as [| c x IH]; intros x' d d' Hd Hd' H.
  - destruct x' as [| c' x']; simpl in H.
    + injection H as ->. auto.
    + injection H as <- ->. exfalso. apply Hd.
      apply in_or_app. right. left. reflexivity.
  - destruct x' as [| c' x']; simpl in H.
    + injection H as -> <-. exfalso. apply Hd'.
      apply in_or_app. right. left. reflexivity.
    + injection H as -> H.
      destruct (IH _ _ _ Hd Hd' H) as [-> ->]. auto.
Qed.

Lemma str_of_nat_no_g i : ~ In 103%N (str_of_nat i).
Proof.
  intros Hin. pose proof (uint_text_digits (Nat.to_uint i)) as Hd.
  rewrite List.Forall_forall in Hd. apply Hd in Hin.
  unfold is_digit in Hin. lia.
Qed.

(** The synthetic identifier determines the identifier it was made from
    and the index. *)
Lemma ensure_unique_fname_inj a i b j :
  ensure_unique_fname a i = ensure_unique_fname b j -> a = b /\ i = j.
Proof.
  unfold ensure_unique_fname.
  assert (E : forall x s : text,
             x ++ AUG ++ s = (x ++ [95; 97; 117]%N) ++ 103%N :: s)
    by (intros; rewrite <- app_assoc; reflexivity).
  rewrite !E. intros H.
  apply last_occurrence_unique in H; try apply str_of_nat_no_g.
  destruct H as [Ha Hi].
  apply app_inv_tail in Ha. apply str_of_nat_inj in Hi. auto.
Qed.

(** ** The run *)

Section RunFacts.
Context {UCD : Unicode} {RNG : Generator}.

(** The run, one case per way it can end. *)
Lemma run_augment_cases input output factor seed limit (w : World) :
  run_augment input output factor seed limit w =
  let w0 := {| fs := fs w; rng := gen_seed seed |} in
  match fs w !! input with
  | None => (w0, inl (FileNotFoundError input))
  | Some df0 =>
    match check_columns required_cols df0 input with
    | inl e => (w0, inl e)
    | inr _ =>
      let df := match limit with Some l => df_head df0 l | None => df0 end in
      let n := Z.of_nat (length (rows df)) in
      match compute_aug_count n factor with
      | inl e => (w0, inl e)
      | inr m =>
        if m =? 0
        then ({| fs := <[output := df]> (fs w); rng := gen_seed seed |},
              inr (n, 0))
        else
          match mapM (fun _ => randrange n) (seq 0 (Z.to_nat m))
                     (gen_seed seed) with
          | (g1, inl e) => ({| fs := fs w; rng := g1 |}, inl e)
          | (g1, inr idx) =>
            match mapM (make_row df (default_config seed)) (enumerate idx) g1
            with
            | (g2, inl e) => ({| fs := fs w; rng := g2 |}, inl e)
            | (g2, inr rows_aug) =>
              let df_out := df_concat df (df_of_rows rows_aug) in
              ({| fs := <[output := df_out]> (fs w); rng := g2 |},
               inr (n, Z.of_nat (length (rows df_out))))
            end
          end
      end
    end
  end.
Proof.
  unfold run_augment, bind, random_seed, read_csv, lift, to_csv, ret, with_rng.
  cbn [fs rng].
  destruct (fs w !! input) as [df0 |]; [| reflexivity].
  destruct (check_columns required_cols df0 input) as [e | []]; [reflexivity |].
  cbv zeta.
  destruct (compute_aug_count _ factor) as [e | m]; [reflexivity |].
  destruct (m =? 0); [reflexivity |].
  cbn [fs rng].
  destruct (mapM _ (seq 0 (Z.to_nat m)) (gen_seed seed)) as [g1 [e | idx]];
    [reflexivity |].
  cbn [fs rng].
  destruct (mapM _ (enumerate idx) g1) as [g2 [e | rows_aug]]; reflexivity.
Qed.
End RunFacts.

Section RunFacts2.
Context {UCD : Unicode} {RNG : Generator}.

Lemma run_augment_frame input output factor seed limit (w1 w2 : World) :
  fs w1 !! input = fs w2 !! input ->
  exists g' written res,
    run_augment input output factor seed limit w1
    = ({| fs := store output written (fs w1); rng := g' |}, res) /\
    run_augment input output factor seed limit w2
    = ({| fs := store output written (fs w2); rng := g' |}, res).
Proof.
  intros Hin. rewrite !run_augment_cases, Hin. cbv zeta.
  destruct (fs w2 !! input) as [df0 |];
    [| eexists _, None, _; split; reflexivity].
  destruct (check_columns required_cols df0 input) as [e | []];
    [eexists _, None, _; split; reflexivity |].
  destruct (compute_aug_count _ factor) as [e | m];
    [eexists _, None, _; split; reflexivity |].
  destruct (m =? 0); [eexists _, (Some _), _; split; reflexivity |].
  destruct (mapM _ (seq 0 (Z.to_nat m)) (gen_seed seed)) as [g1 [e | idx]];
    [eexists _, None, _; split; reflexivity |].
  destruct (mapM _ (enumerate idx) g1) as [g2 [e | rows_aug]];
    [eexists _, None, _; split; reflexivity |].
  eexists _, (Some _), _; split; reflexivity.
Qed.

Lemma check_columns_ok cols df input :
  check_columns cols df input = inr tt <->
  (forall c, In c cols -> c ∈ columns df).
Proof.
  induction cols as [| c cols IH]; simpl.
  - split; [intros _ c [] | reflexivity].
  - destruct (bool_decide_reflect (c ∈ columns df)) as [Hin | Hout].
    + rewrite IH. split.
      * intros H c' [<- | Hc']; auto.
      * intros H c' Hc'. apply H. auto.
    + split; [discriminate |]. intros H. exfalso. apply Hout, H. auto.
Qed.

Lemma check_columns_missing cols df input :
  (exists c, In c cols /\ c ∉ columns df) ->
  exists pre c post,
    cols = pre ++ c :: post /\
    (forall c', In c' pre -> c' ∈ columns df) /\
    (c ∉ columns df) /\
    check_columns cols df input = inl (ValueError (missing_msg c input)).
Proof.
  induction cols as [| c cols IH]; intros (c0 & Hin & Hout); [destruct Hin |].
  simpl. destruct (bool_decide_reflect (c ∈ columns df)) as [Hc | Hc].
  - destruct IH as (pre & c1 & post & -> & Hpre & Hc1 & E).
    { exists c0. split; [| exact Hout].
      destruct Hin as [<- | Hin]; [contradiction | exact Hin]. }
    exists (c :: pre), c1, post. split; [reflexivity |].
    split; [| auto]. intros c' [<- | Hc']; auto.
  - exists [], c, cols. split; [reflexivity |].
    split; [intros c' [] | auto].
Qed.

Lemma concat_columns df rs :
  (forall c, In c required_cols -> c ∈ columns df) ->
  df_concat df (df_of_rows rs)
  = {| columns := columns df; rows := rows df ++ rs |}.
Proof.
  intros Hreq. unfold df_concat, df_of_rows. cbn [columns rows]. f_equal.
  assert (Hnil : forall cols, (forall c, In c cols -> c ∈ columns df) ->
                   filter (fun c => c ∉ columns df) cols = []).
  { induction cols as [| c cols IH]; intros H; [reflexivity |].
    rewrite filter_cons. destruct (decide (c ∉ columns df)) as [Hn | _].
    - exfalso. apply Hn, H. left. reflexivity.
    - apply IH. intros c' Hc'. apply H. right. exact Hc'. }
  rewrite Hnil by exact Hreq. apply app_nil_r.
Qed.

Lemma enumerate_lookup {A} (xs : list A) i j x :
  enumerate xs !! i = Some (j, x) -> j = i /\ xs !! i = Some x.
Proof.
  unfold enumerate. intros H.
  apply lookup_zip_with_Some in H.
  destruct H as (j' & x' & [= -> ->] & Hj & Hx).
  apply lookup_seq in Hj. destruct Hj as [-> _]. auto.
Qed.

Lemma enumerate_in {A} (xs : list A) j x :
  In (j, x) (enumerate xs) -> In x xs.
Proof.
  intros H. apply list_elem_of_In in H. apply list_elem_of_lookup in H.
  destruct H as [i Hi]. apply enumerate_lookup in Hi.
  destruct Hi as [_ Hi]. apply list_elem_of_In.
  eapply list_elem_of_lookup_2. exact Hi.
Qed.

Lemma enumerate_length {A} (xs : list A) : length (enumerate xs) = length xs.
Proof.
  unfold enumerate. rewrite length_zip_with, length_seq. lia.
Qed.

Context {LAWS : GeneratorLaws RNG}.

Lemma sample_indices n m :
  0 < n ->
  returns (mapM (fun _ : nat => randrange n) (seq 0 m))
          (fun idx => length idx = m /\ Forall (fun k => 0 <= k < n) idx).
Proof.
  intros Hn. eapply returns_weaken.
  - apply (returns_mapM _ (fun _ k => 0 <= k < n)).
    intros _ _. apply returns_randrange. exact Hn.
  - intros idx H. split.
    + apply Forall2_length in H. rewrite length_seq in H. auto.
    + clear - H. induction H; constructor; auto.
Qed.

Lemma make_row_synthetic df cfg i k :
  0 <= k < Z.of_nat (length (rows df)) ->
  returns (make_row df cfg (i, k)) (synthetic df cfg (i, k)).
Proof.
  intros Hk g. unfold make_row, bind, lift.
  destruct (py_getitem_in_range (rows df) k Hk) as (src & E & Hsrc).
  rewrite E.
  destruct (augment_dialogue_total (py_str (src !! c_dialogue)) cfg g)
    as (g' & dlg & Ea & _).
  rewrite Ea. unfold ret. eexists g', _. split; [reflexivity |].
  exists src, dlg. cbn [fst snd].
  split; [exact Hk |]. split; [exact Hsrc |].
  split; [exists g, g'; exact Ea | reflexivity].
Qed.

Lemma make_rows df cfg idx :
  Forall (fun k => 0 <= k < Z.of_nat (length (rows df))) idx ->
  returns (mapM (make_row df cfg) (enumerate idx))
          (Forall2 (synthetic df cfg) (enumerate idx)).
Proof.
  intros Hidx. apply returns_mapM. intros [i k] Hin.
  apply make_row_synthetic.
  rewrite List.Forall_forall in Hidx. apply Hidx.
  eapply enumerate_in. exact Hin.
Qed.

(** A run that augments a non-empty frame succeeds; what it writes and
    returns. *)
Lemma run_augment_augments input output factor seed limit (w : World) df0 m :
  fs w !! input = Some df0 ->
  (forall c, In c required_cols -> c ∈ columns df0) ->
  let df := match limit with Some l => df_head df0 l | None => df0 end in
  let n := Z.of_nat (length (rows df)) in
  0 < n ->
  compute_aug_count n factor = inr m ->
  m <> 0 ->
  exists idx rows_aug g',
    run_augment input output factor seed limit w
    = ({| fs := <[output := {| columns := columns df;
                               rows := rows df ++ rows_aug |}]> (fs w);
          rng := g' |},
       inr (n, n + Z.of_nat (length rows_aug))) /\
    length idx = Z.to_nat m /\
    Forall2 (synthetic df (default_config seed)) (enumerate idx) rows_aug.
Proof.
  intros Hin Hcols df n Hn Hm Hm0.
  rewrite run_augment_cases, Hin. cbv zeta.
  rewrite (proj2 (check_columns_ok _ _ _) Hcols).
  fold df. fold n. rewrite Hm.
  destruct (m =? 0) eqn:E; [apply Z.eqb_eq in E; contradiction |].
  destruct (sample_indices n (Z.to_nat m) Hn (gen_seed seed))
    as (g1 & idx & E1 & Hlen & Hidx).
  rewrite E1.
  destruct (make_rows df (default_config seed) idx Hidx g1)
    as (g2 & rows_aug & E2 & Hrows).
  rewrite E2.
  assert (Hcols' : forall c, In c required_cols -> c ∈ columns df).
  { subst df. destruct limit; auto. }
  rewrite (concat_columns df rows_aug Hcols').
  exists idx, rows_aug, g2. cbn [rows].
  split; [| auto].
  rewrite length_app. do 3 f_equal. subst n. lia.
Qed.
End RunFacts2.


Lemma compute_aug_count_empty factor :
  fltb fzero factor = true -> is_finite factor = true ->
  compute_aug_count 0 factor = inr 1.
Proof.
  intros Hpos Hfin. unfold compute_aug_count.
  rewrite (pos_not_le _ Hpos).
  destruct factor as [[] | [] | | [] m e]; try discriminate; reflexivity.
Qed.

Lemma put_cell_lookup (k : text) (o : option text) (r : gmap text text) :
  r !! k = None -> put_cell k o r !! k = o.
Proof.
  intros H. destruct o; simpl; [apply lookup_insert_eq | exact H].
Qed.

Lemma put_cell_lookup_ne (k k' : text) (o : option text) (r : gmap text text) :
  k <> k' -> put_cell k o r !! k' = r !! k'.
Proof.
  intros H. destruct o; simpl; [apply lookup_insert_ne; exact H | reflexivity].
Qed.

Section SyntheticFacts.
Context {UCD : Unicode} {RNG : Generator}.


End SyntheticFacts.

Section Ids.
Context {UCD : Unicode} {RNG : Generator}.


End Ids.

Section Rows.
Context {UCD : Unicode} {RNG : Generator} {LAWS : GeneratorLaws RNG}.

(** One turn of the loop that returns: the row it read, the call of
    [augment_dialogue] it made, the row it built. *)
Lemma make_row_inv df cfg i k ga gb row :
  0 <= k < Z.of_nat (length (rows df)) ->
  make_row df cfg (i, k) ga = (gb, inr row) ->
  exists src dlg,
    rows df !! Z.to_nat k = Some src /\
    augment_dialogue (py_str (src !! c_dialogue)) cfg ga = (gb, inr dlg) /\
    row = <[c_fname := ensure_unique_fname (py_str (src !! c_fname)) i]>
          (<[c_dialogue := dlg]>
           (put_cell c_summary (src !! c_summary)
            (put_cell c_topic (src !! c_topic) ∅))).
Proof.
  intros Hk. unfold make_row, bind, lift.
  destruct (py_getitem_in_range (rows df) k Hk) as (src & E & Hsrc).
  rewrite E.
  destruct (augment_dialogue (py_str (src !! c_dialogue)) cfg ga)
    as [g [e | dlg]] eqn:Ea; [discriminate |].
  unfold ret. intros [= <- <-]. exists src, dlg. auto.
Qed.

Lemma new_row_fields (f d : text) (src : gmap text text) :
  let row := <[c_fname := f]>
             (<[c_dialogue := d]>
              (put_cell c_summary (src !! c_summary)
               (put_cell c_topic (src !! c_topic) ∅))) in
  row !! c_fname = Some f /\ row !! c_dialogue = Some d /\
  row !! c_summary = src !! c_summary /\ row !! c_topic = src !! c_topic.
Proof.
  cbv zeta.
  split; [apply lookup_insert_eq |].
  split; [rewrite lookup_insert_ne by discriminate; apply lookup_insert_eq |].
  split.
  - rewrite !lookup_insert_ne by discriminate.
    apply put_cell_lookup.
    rewrite put_cell_lookup_ne by discriminate. apply lookup_empty.
  - rewrite !lookup_insert_ne by discriminate.
    rewrite put_cell_lookup_ne by discriminate.
    apply put_cell_lookup, lookup_empty.
Qed.

(** A run that augments a non-empty frame, step by step: the indices it
    draws from the seeded generator, then one call of [augment_dialogue]
    per index, each from the state the call before left. *)
Lemma run_augment_rows input output factor seed limit (w : World) df0 m :
  fs w !! input = Some df0 ->
  (forall c, In c required_cols -> c ∈ columns df0) ->
  let df := match limit with Some l => df_head df0 l | None => df0 end in
  let n := Z.of_nat (length (rows df)) in
  0 < n ->
  compute_aug_count n factor = inr m ->
  0 < m ->
  exists idx gs rows_aug g1 g',
    mapM (fun _ : nat => randrange n) (seq 0 (Z.to_nat m)) (gen_seed seed)
    = (g1, inr idx) /\
    run_augment input output factor seed limit w
    = ({| fs := <[output := {| columns := columns df;
                               rows := rows df ++ rows_aug |}]> (fs w);
          rng := g' |},
       inr (n, n + m)) /\
    length idx = Z.to_nat m /\ length rows_aug = Z.to_nat m /\
    length gs = S (Z.to_nat m) /\
    gs !! 0%nat = Some g1 /\ gs !! (Z.to_nat m) = Some g' /\
    forall (i : nat) row, rows_aug !! i = Some row ->
      exists k src dlg ga gb,
        idx !! i = Some k /\ 0 <= k < n /\
        rows df !! Z.to_nat k = Some src /\
        gs !! i = Some ga /\ gs !! (S i) = Some gb /\
        augment_dialogue (py_str (src !! c_dialogue)) (default_config seed) ga
        = (gb, inr dlg) /\
        row !! c_fname = Some (ensure_unique_fname (py_str (src !! c_fname)) i) /\
        row !! c_dialogue = Some dlg /\
        row !! c_summary = src !! c_summary /\
        row !! c_topic = src !! c_topic.
Proof.
  intros Hin Hcols df n Hn Hm Hm0.
  rewrite run_augment_cases, Hin. cbv zeta.
  rewrite (proj2 (check_columns_ok _ _ _) Hcols).
  fold df. fold n. rewrite Hm.
  destruct (m =? 0) eqn:E; [apply Z.eqb_eq in E; lia |].
  destruct (sample_indices n (Z.to_nat m) Hn (gen_seed seed))
    as (g1 & idx & E1 & Hlen & Hidx).
  rewrite E1.
  destruct (make_rows df (default_config seed) idx Hidx g1)
    as (g2 & rows_aug & E2 & _).
  rewrite E2.
  destruct (mapM_chain _ _ _ _ _ E2) as (gs & Hgs & Hg0 & Hglast & Hlen2 & Hstep).
  rewrite enumerate_length in Hgs, Hglast, Hlen2.
  assert (Hcols' : forall c, In c required_cols -> c ∈ columns df).
  { subst df. destruct limit; auto. }
  rewrite (concat_columns df rows_aug Hcols').
  exists idx, gs, rows_aug, g1, g2. cbn [rows].
  split; [reflexivity |].
  split; [rewrite length_app; do 3 f_equal; subst n; lia |].
  split; [exact Hlen |]. split; [lia |]. split; [lia |].
  split; [exact Hg0 |]. split; [rewrite <- Hlen; exact Hglast |].
  intros i row Hrow.
  assert (Hi : (i < length (enumerate idx))%nat).
  { rewrite enumerate_length, <- Hlen2. eapply lookup_lt_Some. exact Hrow. }
  apply lookup_lt_is_Some_2 in Hi. destruct Hi as [[i' k] Hik].
  destruct (enumerate_lookup _ _ _ _ Hik) as [-> Hk].
  destruct (Hstep i (i, k) row Hik Hrow) as (ga & gb & Ha & Hb & Hf).
  assert (Hrange : 0 <= k < n).
  { rewrite Forall_lookup in Hidx. exact (Hidx i k Hk). }
  destruct (make_row_inv df (default_config seed) i k ga gb row Hrange Hf)
    as (src & dlg & Hsrc & Haug & ->).
  destruct (new_row_fields (ensure_unique_fname (py_str (src !! c_fname)) i)
              dlg src) as (Hf1 & Hf2 & Hf3 & Hf4).
  exists k, src, dlg, ga, gb. auto 12.
Qed.
End Rows.


(** ** The claims on a run *)

(** C1: the outcome of a run (what it returns or raises, the frame it
    writes, the state it leaves the generator in) is determined by its
    arguments and the frame stored at the input path: two runs that agree on
    these agree on the outcome, whatever the generator held before and
    whatever else the files hold. *)
Theorem run_augment_deterministic (UCD : Unicode) (RNG : Generator)
    (input output : text) (factor : float) (seed : Z) (limit : option Z)
    (w1 w2 : World) :
  fs w1 !! input = fs w2 !! input ->
  exists g' written res,
    run_augment input output factor seed limit w1
    = ({| fs := store output written (fs w1); rng := g' |}, res) /\
    run_augment input output factor seed limit w2
    = ({| fs := store output written (fs w2); rng := g' |}, res).
Proof. apply run_augment_frame. Qed.

Lemma run_augment_deterministic_witness :
  exists g' written res,
    run_augment (UCD := basic_ucd) Example.input Example.output f0_5 42 None
                (Example.world 0)
    = ({| fs := store Example.output written Example.files; rng := g' |}, res) /\
    run_augment (UCD := basic_ucd) Example.input Example.output f0_5 42 None
                (Example.world_of Example.more_files 2026)
    = ({| fs := store Example.output written Example.more_files; rng := g' |},
       res).
Proof.
  apply (run_augment_deterministic basic_ucd lcg Example.input Example.output
           f0_5 42 None (Example.world 0)
           (Example.world_of Example.more_files 2026)).
  vm_compute. reflexivity.
Defined.

(** C2, as the code has it: a run that samples [m > 0] rows of a
    non-empty frame draws [m] indices from the seeded generator, and writes
    the original rows, unchanged and in their order, followed by [m]
    synthetic rows in the order they were made.  The synthetic row number
    [i] is made from the row at the [i]-th index drawn: it has the summary
    and the topic of that row; its dialogue is what [augment_dialogue]
    returns, from the state the row before left the generator in, on the
    source dialogue, and on the text [nan] when the source row has no
    dialogue; its identifier is the source identifier ([nan] when there is
    none) followed by [_aug] and [i]. *)
Theorem run_augment_output_rows (UCD : Unicode) (RNG : Generator)
    (input output : text) (factor : float) (seed : Z) (limit : option Z)
    (w : World) (df0 : DataFrame) (m : Z) :
  GeneratorLaws RNG ->
  fs w !! input = Some df0 ->
  (forall c, In c required_cols -> c ∈ columns df0) ->
  let df := match limit with Some l => df_head df0 l | None => df0 end in
  let n := Z.of_nat (length (rows df)) in
  0 < n ->
  compute_aug_count n factor = inr m ->
  0 < m ->
  exists idx gs rows_aug g1 g',
    mapM (fun _ : nat => randrange n) (seq 0 (Z.to_nat m)) (gen_seed seed)
    = (g1, inr idx) /\
    run_augment input output factor seed limit w
    = ({| fs := <[output := {| columns := columns df;
                               rows := rows df ++ rows_aug |}]> (fs w);
          rng := g' |},
       inr (n, n + m)) /\
    length idx = Z.to_nat m /\ length rows_aug = Z.to_nat m /\
    length gs = S (Z.to_nat m) /\
    gs !! 0%nat = Some g1 /\ gs !! (Z.to_nat m) = Some g' /\
    forall (i : nat) row, rows_aug !! i = Some row ->
      exists k src dlg ga gb,
        idx !! i = Some k /\ 0 <= k < n /\
        rows df !! Z.to_nat k = Some src /\
        gs !! i = Some ga /\ gs !! (S i) = Some gb /\
        augment_dialogue match src !! c_dialogue with
                         | Some d => d
                         | None => U "nan"
                         end (default_config seed) ga
        = (gb, inr dlg) /\
        row !! c_fname
        = Some (ensure_unique_fname match src !! c_fname with
                                    | Some a => a
                                    | None => U "nan"
                                    end i) /\
        row !! c_dialogue = Some dlg /\
        row !! c_summary = src !! c_summary /\
        row !! c_topic = src !! c_topic.
Proof.
  intros LAWS Hin Hcols df n Hn Hm Hm0.
  exact (run_augment_rows input output factor seed limit w df0 m
           Hin Hcols Hn Hm Hm0).
Qed.

Lemma run_augment_output_rows_witness :
  exists (idx : list Z) (gs : list Z) (rows_aug : list (gmap text text))
         (g1 g' : Z),
    mapM (fun _ : nat => randrange (RNG := lcg) 2) (seq 0 1) 42
    = (g1, inr idx) /\
    run_augment (UCD := basic_ucd) Example.input Example.output f0_5 42 None
                (Example.world 0)
    = (Example.world_of
         (<[Example.output :=
              {| columns := required_cols;
                 rows := rows Example.df2 ++ rows_aug |}]> Example.files) g',
       inr (2, 2 + 1)) /\
    length idx = 1%nat /\ length rows_aug = 1%nat /\
    length gs = 2%nat /\
    gs !! 0%nat = Some g1 /\ gs !! 1%nat = Some g' /\
    forall (i : nat) (row : gmap text text), rows_aug !! i = Some row ->
      exists (k : Z) (src : gmap text text) (dlg : text) (ga gb : Z),
        idx !! i = Some k /\ 0 <= k < 2 /\
        rows Example.df2 !! Z.to_nat k = Some src /\
        gs !! i = Some ga /\ gs !! (S i) = Some gb /\
        augment_dialogue (UCD := basic_ucd) (RNG := lcg)
                         match src !! c_dialogue with
                         | Some d => d
                         | None => U "nan"
                         end (default_config 42) ga
        = (gb, inr dlg) /\
        row !! c_fname
        = Some (ensure_unique_fname match src !! c_fname with
                                    | Some a => a
                                    | None => U "nan"
                                    end i) /\
        row !! c_dialogue = Some dlg /\
        row !! c_summary = src !! c_summary /\
        row !! c_topic = src !! c_topic.
Proof.
  apply (run_augment_output_rows basic_ucd lcg Example.input Example.output
           f0_5 42 None (Example.world 0) Example.df2 1 lcg_laws).
  - vm_compute. reflexivity.
  - intros c Hc. apply list_elem_of_In. exact Hc.
  - simpl. lia.
  - vm_compute. reflexivity.
  - lia.
Defined.

(** C2 as stated fails when the dialogue of a source row is missing: the
    one row of the frame has no dialogue (an empty field of the file), and
    the synthetic row made from it has the dialogue [nan], the text that
    [str] gives for a missing value; nothing of it comes from the source. *)
Lemma synthetic_dialogue_of_missing :
  map (fun r : gmap text text => r !! c_dialogue) (rows Example.df_missing)
  = [None] /\
  (let (w', res) :=
     run_augment (UCD := basic_ucd) Example.input Example.output f0_5 42 None
                 (Example.world_of {[ Example.input := Example.df_missing ]} 0)
   in
   (res, (fun df => map (fun r : gmap text text => r !! c_dialogue) (rows df))
           <$> fs w' !! Example.output))
  = (inr (1, 2), Some [None; Some (U "nan")]).
Proof.
  split.
  - reflexivity.
  - vm_compute. reflexivity.
Qed.

(** C4 at its failing input, and the other path: when [m = 0] the run
    writes the [n] rows it considered and returns [(n, 0)], not [(n, n)];
    when [m > 0] rows are sampled from a non-empty frame it returns
    [(n, n + m)], the number of rows it wrote. *)
Theorem run_augment_reported_counts (UCD : Unicode) (RNG : Generator)
    (input output : text) (factor : float) (seed : Z) (limit : option Z)
    (w : World) (df0 : DataFrame) (m : Z) :
  GeneratorLaws RNG ->
  fs w !! input = Some df0 ->
  (forall c, In c required_cols -> c ∈ columns df0) ->
  let df := match limit with Some l => df_head df0 l | None => df0 end in
  let n := Z.of_nat (length (rows df)) in
  compute_aug_count n factor = inr m ->
  (m = 0 ->
   run_augment input output factor seed limit w
   = ({| fs := <[output := df]> (fs w); rng := gen_seed seed |}, inr (n, 0))) /\
  (0 < m -> 0 < n ->
   exists w' df_out,
     run_augment input output factor seed limit w = (w', inr (n, n + m)) /\
     fs w' !! output = Some df_out /\
     Z.of_nat (length (rows df_out)) = n + m).
Proof.
  intros LAWS Hin Hcols df n Hm. split.
  - intros ->. rewrite run_augment_cases, Hin. cbv zeta.
    rewrite (proj2 (check_columns_ok _ _ _) Hcols).
    fold df. fold n. rewrite Hm. reflexivity.
  - intros Hm0 Hn.
    destruct (run_augment_augments input output factor seed limit w df0 m
                Hin Hcols Hn Hm ltac:(lia))
      as (idx & rows_aug & g' & Hrun & Hlen & Hrows).
    apply Forall2_length in Hrows. rewrite enumerate_length in Hrows.
    fold df in Hrun. fold n in Hrun.
    eexists _, _. split; [rewrite Hrun; do 3 f_equal; lia |].
    split; [apply lookup_insert_eq |].
    cbn [rows]. rewrite length_app. fold n. lia.
Qed.

Lemma run_augment_reported_counts_witness :
  run_augment (UCD := basic_ucd) Example.input Example.output fzero 42 None
              (Example.world 0)
  = (Example.world_of (<[Example.output := Example.df2]> Example.files) 42,
     inr (2, 0)).
Proof.
  refine (proj1 (run_augment_reported_counts basic_ucd lcg Example.input
                   Example.output fzero 42 None (Example.world 0) Example.df2 0
                   lcg_laws _ _ _) eq_refl).
  - vm_compute. reflexivity.
  - intros c Hc. apply list_elem_of_In. exact Hc.
  - vm_compute. reflexivity.
Defined.

(** C9: when a required column is missing from the frame read, the run
    raises [ValueError] with the message
    [Missing required column '<c>' in <input path>] for a missing required
    column [c] (the first one in the order fname, dialogue, summary,
    topic); no file is written and the generator has only been seeded, no
    draw was made. *)
Theorem run_augment_missing_column (UCD : Unicode) (RNG : Generator)
    (input output : text) (factor : float) (seed : Z) (limit : option Z)
    (w : World) (df0 : DataFrame) :
  fs w !! input = Some df0 ->
  (exists c, In c required_cols /\ c ∉ columns df0) ->
  exists pre c post,
    required_cols = pre ++ c :: post /\
    (forall c', In c' pre -> c' ∈ columns df0) /\
    (c ∉ columns df0) /\
    run_augment input output factor seed limit w
    = ({| fs := fs w; rng := gen_seed seed |},
       inl (ValueError
              (U "Missing required column '" ++ c ++ U "' in " ++ input))).
Proof.
  intros Hin Hmiss.
  destruct (check_columns_missing required_cols df0 input Hmiss)
    as (pre & c & post & Hsplit & Hpre & Hc & Hchk).
  exists pre, c, post.
  split; [exact Hsplit |]. split; [exact Hpre |]. split; [exact Hc |].
  rewrite run_augment_cases, Hin. cbv zeta. rewrite Hchk. reflexivity.
Qed.

Lemma run_augment_missing_column_witness :
  exists pre c post,
    required_cols = pre ++ c :: post /\
    (forall c', In c' pre -> c' ∈ columns Example.df_no_topic) /\
    (c ∉ columns Example.df_no_topic) /\
    run_augment (UCD := basic_ucd) Example.input Example.output f0_5 42 None
                (Example.world_of {[ Example.input := Example.df_no_topic ]} 7)
    = (Example.world_of {[ Example.input := Example.df_no_topic ]} 42,
       inl (ValueError
              (U "Missing required column '" ++ c ++ U "' in " ++ Example.input))).
Proof.
  refine (run_augment_missing_column basic_ucd lcg Example.input Example.output
           f0_5 42 None
           (Example.world_of {[ Example.input := Example.df_no_topic ]} 7)
           Example.df_no_topic _ _).
  - vm_compute. reflexivity.
  - exists c_topic. split.
    + simpl. auto.
    + by_evaluation.
Defined.

(** C10, as the code has it: on a frame without rows and a finite
    [factor > 0], [compute_aug_count] returns 1 and the run raises
    [ValueError] when it draws the first index from the empty range; no
    file is written. *)
Theorem run_augment_empty_frame (UCD : Unicode) (RNG : Generator)
    (input output : text) (factor : float) (seed : Z) (limit : option Z)
    (w : World) (df0 : DataFrame) :
  fs w !! input = Some df0 ->
  (forall c, In c required_cols -> c ∈ columns df0) ->
  rows (match limit with Some l => df_head df0 l | None => df0 end) = [] ->
  fltb fzero factor = true ->
  is_finite factor = true ->
  compute_aug_count 0 factor = inr 1 /\
  run_augment input output factor seed limit w
  = ({| fs := fs w; rng := gen_seed seed |},
     inl (ValueError (U "empty range for randrange()"))).
Proof.
  intros Hin Hcols Hrows Hpos Hfin.
  pose proof (compute_aug_count_empty factor Hpos Hfin) as Hm.
  split; [exact Hm |].
  rewrite run_augment_cases, Hin. cbv zeta.
  rewrite (proj2 (check_columns_ok _ _ _) Hcols).
  rewrite Hrows.
  change (Z.of_nat (length (@nil (gmap text text)))) with 0.
  rewrite Hm. reflexivity.
Qed.

Lemma run_augment_empty_frame_witness :
  compute_aug_count 0 f0_5 = inr 1 /\
  run_augment (UCD := basic_ucd) Example.input Example.output f0_5 42 None
              (Example.world_of {[ Example.input := Example.df_empty ]} 7)
  = (Example.world_of {[ Example.input := Example.df_empty ]} 42,
     inl (ValueError (U "empty range for randrange()"))).
Proof.
  refine (run_augment_empty_frame basic_ucd lcg Example.input Example.output
           f0_5 42 None
           (Example.world_of {[ Example.input := Example.df_empty ]} 7)
           Example.df_empty _ _ _ _ _).
  - vm_compute. reflexivity.
  - intros c Hc. apply list_elem_of_In. exact Hc.
  - reflexivity.
  - reflexivity.
  - reflexivity.
Defined.

(** C10 as stated fails at the infinite factor: it is positive, the
    product [0 * inf] is NaN and [round] raises on it. *)
Lemma compute_aug_count_empty_inf :
  fltb fzero float_inf = true /\
  compute_aug_count 0 float_inf
  = inl (ValueError (U "cannot convert float NaN to integer")).
Proof. split; reflexivity. Qed.




(** * Further properties *)

(** ** Matches in general *)

Section Hits.
Context {UCD : Unicode}.

(** Every match reported in a text is a match of the pattern there. *)
Lemma finditer_hit_sem r s segs1 m segs2 :
  finditer r s = segs1 ++ Hit m :: segs2 ->
  m <> [] /\ s = flatten segs1 ++ m ++ flatten segs2 /\
  sem r (rev (flatten segs1)) (m ++ flatten segs2)
        (rev m ++ rev (flatten segs1)) (flatten segs2).
Proof.
  intros H. unfold finditer in H.
  destruct (scan_hit r s 0%nat [] _ _ _ ltac:(lia) H)
    as (pre & post & -> & Hne & Hma & <- & Hpre & _).
  rewrite drop_0 in Hpre. subst pre.
  split; [exact Hne |]. split; [reflexivity |].
  destruct (match_at_sound _ _ _ _ Hma) as (cs & a' & Heq & Hlen & Hsem).
  apply app_inj_1 in Heq; [| exact Hlen]. destruct Heq as [<- <-].
  rewrite app_nil_r in Hsem. exact Hsem.
Qed.

Lemma hits_Forall r s (P : text -> Prop) :
  (forall b m a', m <> [] -> sem r b (m ++ a') (rev m ++ b) a' -> P m) ->
  Forall (fun sg => match sg with Hit m => P m | Gap _ => True end)
         (finditer r s).
Proof.
  intros HP. apply List.Forall_forall. intros [c | m] Hin; [exact I |].
  apply in_split in Hin. destruct Hin as (segs1 & segs2 & Heq).
  destruct (finditer_hit_sem _ _ _ _ _ Heq) as (Hne & _ & Hsem).
  eapply HP; eauto.
Qed.

(** A substitution keeps the selected characters when neither the matches
    nor the replacements hold any. *)
Lemma render_kept keep segs (parts : list text) :
  Forall (fun sg => match sg with
                    | Hit m => none_kept keep m
                    | Gap _ => True
                    end) segs ->
  Forall2 (fun sg part => match sg with
                          | Gap c => part = [c]
                          | Hit m => kept keep part = []
                          end) segs parts ->
  kept keep (concat parts) = kept keep (flatten segs).
Proof.
  intros Hhits Hparts. unfold kept in *.
  induction Hparts as [| sg part segs parts Hsg _ IH]; [reflexivity |].
  inversion Hhits as [| ? ? Hm Hhits']; subst.
  rewrite flatten_cons. simpl concat. rewrite !List.filter_app, IH by exact Hhits'.
  f_equal. destruct sg as [c | m]; simpl in *.
  - subst part. reflexivity.
  - rewrite Hsg. symmetry. clear - Hm.
    induction Hm as [| c m Hc _ IH]; simpl; [reflexivity |].
    rewrite Hc. exact IH.
Qed.

Lemma none_kept_nil keep s : none_kept keep s -> kept keep s = [].
Proof.
  intros H. unfold kept. induction H as [| c s Hc _ IH]; simpl; [reflexivity |].
  rewrite Hc. exact IH.
Qed.

Lemma re_sub_kept keep r repl s :
  (forall b m a', m <> [] -> sem r b (m ++ a') (rev m ++ b) a' ->
                  none_kept keep m) ->
  none_kept keep repl ->
  kept keep (re_sub r repl s) = kept keep s.
Proof.
  intros Hhits Hrepl. unfold re_sub.
  rewrite <- (flatten_finditer r s) at 2.
  apply render_kept.
  - apply hits_Forall. exact Hhits.
  - apply none_kept_nil in Hrepl. clear - Hrepl.
    induction (finditer r s) as [| [c | m] segs IH]; constructor; auto.
Qed.

(** A substitution by the empty string only deletes. *)
Lemma re_sub_empty_sublist r s : re_sub r [] s `sublist_of` s.
Proof.
  unfold re_sub. rewrite <- (flatten_finditer r s) at 2.
  induction (finditer r s) as [| [c | m] segs IH]; simpl.
  - constructor.
  - rewrite flatten_cons. simpl. apply sublist_skip. exact IH.
  - rewrite flatten_cons. simpl. apply sublist_inserts_l. exact IH.
Qed.

Lemma plus_hit_chars p b m a' :
  sem (Plus p) b (m ++ a') (rev m ++ b) a' -> Forall (fun c => p c = true) m.
Proof.
  intros H. apply sem_plus in H. destruct H as (ds & _ & Hds & Heq & _).
  apply app_inv_tail in Heq. subst. exact Hds.
Qed.

Lemma filler_hit_chars f b m a' :
  sem (filler_re f) b (m ++ a') (rev m ++ b) a' ->
  exists ts, m = f ++ ts /\ Forall (fun c => is_trail c = true) ts.
Proof.
  unfold filler_re. simpl.
  intros (b1 & a1 & (_ & -> & ->) & b2 & a2 & Hl & ts & Hts & -> & _).
  apply sem_Lits in Hl. rewrite app_assoc in Hl.
  apply app_inv_tail in Hl. eauto.
Qed.

Lemma numeric_token_chars m :
  numeric_token m ->
  Forall (fun c => isdecimal c = true \/ is_sep c = true) m.
Proof.
  intros (d1 & _ & Hd1 & [-> | (sp & d2 & Hsp & _ & Hd2 & ->)]).
  - eapply Forall_impl; [exact Hd1 | auto].
  - apply Forall_app. split; [eapply Forall_impl; [exact Hd1 | auto] |].
    constructor; [auto |]. eapply Forall_impl; [exact Hd2 | auto].
Qed.

Lemma num_hit_chars b m a' :
  sem NUM_RE b (m ++ a') (rev m ++ b) a' ->
  Forall (fun c => isdecimal c = true \/ is_sep c = true) m.
Proof.
  intros H. apply num_re_sem in H. destruct H as (_ & _ & m' & Heq & Htok).
  apply app_inv_tail in Heq. subst. apply numeric_token_chars, Htok.
Qed.
End Hits.

(** ** Operations on [str] *)

Lemma starts_with_spec key s :
  starts_with key s = true -> s = key ++ drop (length key) s.
Proof.
  revert s. induction key as [| a key IH]; intros s H; [reflexivity |].
  destruct s as [| b s]; [discriminate |]. simpl in H.
  apply andb_true_iff in H. destruct H as [Hab H].
  apply N.eqb_eq in Hab. subst b. simpl. f_equal. apply IH, H.
Qed.

Lemma replace_first_kept keep key cand s :
  none_kept keep key -> none_kept keep cand ->
  kept keep (replace_first key cand s) = kept keep s.
Proof.
  intros Hk Hc. apply none_kept_nil in Hk, Hc. unfold kept in *.
  induction s as [| c s IH].
  - destruct key as [| k key]; [| reflexivity].
    cbn. rewrite app_nil_r. exact Hc.
  - cbn [replace_first]. destruct (starts_with key (c :: s)) eqn:E.
    + apply starts_with_spec in E. rewrite List.filter_app, Hc.
      rewrite E at 2. rewrite List.filter_app, Hk. reflexivity.
    + simpl. rewrite IH. reflexivity.
Qed.

Lemma dict_get_In {V} (d : list (text * V)) key v :
  dict_get d key = inr v -> In (key, v) d.
Proof.
  induction d as [| [k v'] d IH]; simpl; [discriminate |].
  destruct (bool_decide_reflect (k = key)) as [-> | _].
  - intros [= ->]. auto.
  - auto.
Qed.

(** ** More on the transforms *)

Section Pieces.
Context {UCD : Unicode} {RNG : Generator}.

Lemma jittered_same c : jittered c [c].
Proof.
  unfold jittered.
  destruct (chr_eqb c c_quest || chr_eqb c c_bang); [simpl; auto |].
  destruct (chr_eqb c c_comma) eqn:E; [| reflexivity].
  apply N.eqb_eq in E. subst c. simpl. auto.
Qed.

Lemma jittered_length c part :
  jittered c part -> (1 <= length part <= 2)%nat.
Proof.
  unfold jittered.
  destruct (chr_eqb c c_quest || chr_eqb c c_bang).
  - intros [<- | [<- | [<- | [<- | []]]]]; simpl; lia.
  - destruct (chr_eqb c c_comma).
    + intros [<- | [<- | [<- | []]]]; simpl; lia.
    + intros ->. simpl. lia.
Qed.

Lemma jittered_kept keep c part :
  none_kept keep [c_comma; c_space; c_quest; c_bang; c_semi] ->
  jittered c part -> kept keep part = kept keep [c].
Proof.
  intros Hk. unfold none_kept in Hk.
  inversion Hk as [| ? ? H1 Hk1]; subst.
  inversion Hk1 as [| ? ? H2 Hk2]; subst.
  inversion Hk2 as [| ? ? H3 Hk3]; subst.
  inversion Hk3 as [| ? ? H4 Hk4]; subst.
  inversion Hk4 as [| ? ? H5 _]; subst.
  unfold jittered.
  destruct (chr_eqb c c_quest || chr_eqb c c_bang) eqn:E.
  - assert (Hc : keep c = false).
    { apply orb_true_iff in E. destruct E as [E | E];
        apply N.eqb_eq in E; subst c; assumption. }
    intros [<- | [<- | [<- | [<- | []]]]]; unfold kept; simpl;
      rewrite ?Hc, ?H1, ?H2, ?H3, ?H4, ?H5; reflexivity.
  - destruct (chr_eqb c c_comma) eqn:E'.
    + apply N.eqb_eq in E'. subst c.
      intros [<- | [<- | [<- | []]]]; unfold kept; simpl;
        rewrite ?H1, ?H2, ?H3, ?H4, ?H5; reflexivity.
    + intros ->. reflexivity.
Qed.

Context {LAWS : GeneratorLaws RNG}.

(** [punct_jitter] works character by character. *)
Lemma punct_jitter_pieces txt p :
  returns (punct_jitter txt p)
    (fun out => exists parts, out = concat parts /\ Forall2 jittered txt parts).
Proof.
  unfold punct_jitter. destruct (fleb p fzero).
  - apply returns_ret. exists (map (fun c => [c]) txt). split.
    + induction txt; simpl; congruence.
    + induction txt; constructor; auto using jittered_same.
  - eapply returns_bind.
    + apply (returns_mapM _ jittered). intros c _. unfold jittered.
      destruct (chr_eqb c c_quest || chr_eqb c c_bang).
      * eapply returns_bind; [apply returns_random |].
        intros r _. destruct (fltb r p).
        -- apply returns_random_choice. discriminate.
        -- apply returns_ret. simpl. auto.
      * destruct (chr_eqb c c_comma) eqn:E.
        -- eapply returns_bind; [apply returns_random |].
           intros r _. destruct (fltb r p).
           ++ apply returns_random_choice. discriminate.
           ++ apply returns_ret. apply N.eqb_eq in E. subst c. simpl. auto.
        -- apply returns_ret. reflexivity.
    + intros parts Hparts. apply returns_ret. eauto.
Qed.
End Pieces.

Section Keeping.
Context {UCD : Unicode} {RNG : Generator}.
Variable keep : char -> bool.
Hypothesis Hkeep : untouched keep.

Lemma untouched_chars :
  keep c_comma = false /\ keep c_dot = false /\ keep c_space = false /\
  keep c_quest = false /\ keep c_bang = false /\ keep c_semi = false.
Proof.
  destruct Hkeep as (_ & _ & Hp & _). unfold none_kept in Hp.
  inversion Hp as [| ? ? H1 Hp1]; subst.
  inversion Hp1 as [| ? ? H2 Hp2]; subst.
  inversion Hp2 as [| ? ? H3 Hp3]; subst.
  inversion Hp3 as [| ? ? H4 Hp4]; subst.
  inversion Hp4 as [| ? ? H5 Hp5]; subst.
  inversion Hp5 as [| ? ? H6 _]; subst.
  auto 10.
Qed.

Lemma untouched_punct :
  none_kept keep [c_comma; c_space; c_quest; c_bang; c_semi].
Proof.
  destruct untouched_chars as (? & ? & ? & ? & ? & ?).
  repeat constructor; assumption.
Qed.

Lemma untouched_trail c : is_trail c = true -> keep c = false.
Proof.
  destruct untouched_chars as (? & ? & ? & ? & ? & ?).
  unfold is_trail. intros Ht.
  repeat (apply orb_true_iff in Ht; destruct Ht as [Ht | Ht]);
    apply N.eqb_eq in Ht; subst c; assumption.
Qed.

Lemma untouched_sep c : is_sep c = true -> keep c = false.
Proof.
  destruct untouched_chars as (? & ? & ? & ? & ? & ?).
  unfold is_sep. intros Ht.
  repeat (apply orb_true_iff in Ht; destruct Ht as [Ht | Ht]);
    apply N.eqb_eq in Ht; subst c; assumption.
Qed.

Lemma mask_numbers_kept txt p :
  returns (mask_numbers txt p) (fun out => kept keep out = kept keep txt).
Proof.
  eapply returns_weaken; [apply mask_numbers_pieces |].
  intros out (parts & -> & Hparts).
  transitivity (kept keep (flatten (finditer NUM_RE txt)));
    [| rewrite flatten_finditer; reflexivity].
  apply render_kept.
  - apply hits_Forall. intros b m a' _ Hsem.
    apply num_hit_chars in Hsem. unfold none_kept.
    eapply Forall_impl; [exact Hsem |]. intros c [Hc | Hc].
    + destruct Hkeep as (Hd & _). auto.
    + apply untouched_sep, Hc.
  - assert (Hhits : Forall (fun sg => match sg with
                                      | Hit m => none_kept keep m
                                      | Gap _ => True
                                      end) (finditer NUM_RE txt)).
    { apply hits_Forall. intros b m a' _ Hsem.
      apply num_hit_chars in Hsem. unfold none_kept.
      eapply Forall_impl; [exact Hsem |]. intros c [Hc | Hc].
      - destruct Hkeep as (Hd & _). auto.
      - apply untouched_sep, Hc. }
    revert Hhits. induction Hparts as [| sg part segs parts Hsg _ IH];
      intros Hhits; constructor.
    + inversion Hhits as [| ? ? Hm _]; subst.
      destruct sg as [c | m]; simpl in *; [exact Hsg |].
      destruct Hsg as [-> | ->].
      * apply none_kept_nil. destruct Hkeep as (_ & _ & _ & Hn & _). exact Hn.
      * apply none_kept_nil, Hm.
    + apply IH. inversion Hhits; assumption.
Qed.

Lemma replace_phrases_kept txt p {LAWS : GeneratorLaws RNG} :
  returns (replace_phrases txt p) (fun out => kept keep out = kept keep txt).
Proof.
  unfold replace_phrases. destruct (fleb p fzero).
  - apply returns_ret. reflexivity.
  - apply (returns_foldM _ (fun out => kept keep out = kept keep txt));
      [| reflexivity].
    intros acc key Hkey Hacc.
    eapply returns_bind; [apply returns_random |].
    intros r _. destruct (fltb r p && contains key acc);
      [| apply returns_ret; exact Hacc].
    pose proof synonyms_found as Hall. rewrite List.Forall_forall in Hall.
    destruct (Hall key Hkey) as (alts & E & Hne).
    eapply returns_bind;
      [apply (returns_lift _ alts (fun a => a = alts)); [exact E | reflexivity] |].
    intros alts' ->.
    eapply returns_bind; [apply returns_random_choice; exact Hne |].
    intros cand Hcand. apply returns_ret.
    destruct Hkeep as (_ & _ & _ & _ & Hlex & _).
    rewrite List.Forall_forall in Hlex.
    destruct (Hlex _ (dict_get_In _ _ _ E)) as [Hk Ha]. simpl in Hk, Ha.
    rewrite List.Forall_forall in Ha.
    rewrite replace_first_kept; [exact Hacc | exact Hk | apply Ha, Hcand].
Qed.

Lemma filler_sub_kept f s :
  In f FILLERS -> kept keep (re_sub (filler_re f) [] s) = kept keep s.
Proof.
  intros Hf. apply re_sub_kept; [| constructor].
  intros b m a' _ Hsem. apply filler_hit_chars in Hsem.
  destruct Hsem as (ts & -> & Hts).
  apply Forall_app. split.
  - destruct Hkeep as (_ & _ & _ & _ & _ & Hfill).
    rewrite List.Forall_forall in Hfill. apply Hfill, Hf.
  - eapply Forall_impl; [exact Hts |]. apply untouched_trail.
Qed.

Lemma lstrip_kept s : kept keep (lstrip s) = kept keep s.
Proof.
  induction s as [| c s IH]; [reflexivity |]. simpl.
  destruct (isspace c) eqn:E; [| reflexivity].
  destruct Hkeep as (_ & Hs & _). unfold kept in *. simpl.
  rewrite (Hs c E). exact IH.
Qed.

Lemma kept_rev s : kept keep (rev s) = rev (kept keep s).
Proof.
  unfold kept. induction s as [| c s IH]; [reflexivity |]. simpl.
  rewrite List.filter_app, IH. simpl.
  destruct (keep c); simpl; [reflexivity | apply app_nil_r].
Qed.

Lemma strip_kept s : kept keep (strip s) = kept keep s.
Proof.
  unfold strip. rewrite kept_rev, lstrip_kept, kept_rev, rev_involutive.
  apply lstrip_kept.
Qed.

Lemma spaces_sub_kept s :
  kept keep (re_sub SPACES_RE [c_space] s) = kept keep s.
Proof.
  apply re_sub_kept.
  - intros b m a' _ Hsem. apply plus_hit_chars in Hsem.
    eapply Forall_impl; [exact Hsem |]. destruct Hkeep as (_ & Hs & _). exact Hs.
  - destruct untouched_chars as (_ & _ & Hsp & _).
    constructor; [exact Hsp | constructor].
Qed.

Lemma drop_fillers_kept txt p :
  returns (drop_fillers txt p) (fun out => kept keep out = kept keep txt).
Proof.
  unfold drop_fillers. destruct (fleb p fzero).
  - apply returns_ret. reflexivity.
  - eapply returns_bind.
    + apply (returns_foldM _ (fun out => kept keep out = kept keep txt));
        [| reflexivity].
      intros acc f Hf Hacc. unfold drop_step.
      eapply returns_bind; [apply returns_random |].
      intros r _. apply returns_ret.
      destruct (fltb r p); [| exact Hacc].
      rewrite filler_sub_kept; [exact Hacc | exact Hf].
    + intros out Hout. apply returns_ret.
      rewrite strip_kept, spaces_sub_kept. exact Hout.
Qed.

Lemma punct_jitter_kept txt p {LAWS : GeneratorLaws RNG} :
  returns (punct_jitter txt p) (fun out => kept keep out = kept keep txt).
Proof.
  eapply returns_weaken; [apply punct_jitter_pieces |].
  intros out (parts & -> & Hparts).
  induction Hparts as [| c part cs parts Hc _ IH]; [reflexivity |].
  simpl concat. unfold kept in *. rewrite List.filter_app, IH.
  change (c :: cs) with ([c] ++ cs). rewrite List.filter_app. f_equal.
  apply (jittered_kept keep c part untouched_punct Hc).
Qed.
End Keeping.

(** ** The white space pass of [drop_fillers] *)

Section Squeeze.
Context {UCD : Unicode}.

Lemma star_match_run p b a :
  star_match p (fun _ rest => Some rest) b a = Some (drop (run_length p a) a).
Proof.
  revert b. induction a as [| c a IH]; intros b; simpl; [reflexivity |].
  destruct (p c); [| reflexivity]. rewrite IH. reflexivity.
Qed.

Lemma run_length_le p a : (run_length p a <= length a)%nat.
Proof. induction a as [| c a IH]; simpl; [lia |]. destruct (p c); lia. Qed.

Lemma match_at_plus p b c a :
  match_at (Plus p) b (c :: a)
  = if p c then Some (S (run_length p a)) else None.
Proof.
  unfold match_at, Plus. simpl. destruct (p c); [| reflexivity].
  rewrite star_match_run. rewrite length_drop.
  pose proof (run_length_le p a). f_equal. lia.
Qed.

(** [re.sub(p+, sp, s)] replaces each maximal run by one [sp]. *)
Lemma scan_plus_squeeze p sp :
  forall a b,
    let render := fun sg => match sg with Gap c => [c] | Hit _ => [sp] end in
    concat (map render (scan (Plus p) 0 b a)) = squeeze p sp false a /\
    concat (map render (scan (Plus p) (run_length p a) b a))
    = squeeze p sp true a.
Proof.
  induction a as [| c a IH]; intros b render; [split; reflexivity |].
  split.
  - cbn [scan]. rewrite match_at_plus. simpl squeeze.
    destruct (p c) eqn:Hc.
    + simpl. f_equal. apply IH.
    + simpl. f_equal. apply IH.
  - simpl run_length. simpl squeeze. destruct (p c) eqn:Hc.
    + cbn [scan]. apply IH.
    + cbn [scan]. rewrite match_at_plus, Hc. simpl. f_equal. apply IH.
Qed.

Lemma re_sub_spaces_squeeze s :
  re_sub SPACES_RE [c_space] s = squeeze isspace c_space false s.
Proof. apply (scan_plus_squeeze isspace c_space s []). Qed.

Lemma squeeze_single_spaced s :
  (forall prev, single_spaced prev (squeeze isspace c_space true s) = true) /\
  single_spaced false (squeeze isspace c_space false s) = true.
Proof.
  induction s as [| c s [IH1 IH2]]; [split; reflexivity |].
  split.
  - intros prev. simpl. destruct (isspace c) eqn:Hc; [apply IH1 |].
    simpl. rewrite Hc. exact IH2.
  - simpl. destruct (isspace c) eqn:Hc.
    + simpl. destruct (isspace c_space).
      * simpl. apply IH1.
      * apply IH1.
    + simpl. rewrite Hc. exact IH2.
Qed.

Lemma single_spaced_lstrip s :
  forall prev prev', single_spaced prev s = true ->
                     single_spaced prev' (lstrip s) = true.
Proof.
  induction s as [| c s IH]; intros prev prev' H; [reflexivity |].
  simpl in *. destruct (isspace c) eqn:Hc.
  - apply andb_true_iff in H. destruct H as [_ H]. eapply IH. exact H.
  - simpl. rewrite Hc. exact H.
Qed.

Lemma single_spaced_app s t prev :
  single_spaced prev (s ++ t) = true -> single_spaced prev s = true.
Proof.
  revert prev. induction s as [| c s IH]; intros prev H; [reflexivity |].
  simpl in *. destruct (isspace c).
  - apply andb_true_iff in H. destruct H as [H1 H2].
    rewrite H1. simpl. eapply IH. exact H2.
  - eapply IH. exact H.
Qed.

(** [lstrip] removes a prefix of white space and stops at the first other
    character. *)
Lemma lstrip_spec s :
  exists ws, s = ws ++ lstrip s /\ Forall (fun c => isspace c = true) ws /\
             (forall c, head (lstrip s) = Some c -> isspace c = false).
Proof.
  induction s as [| c s (ws & Heq & Hws & Hhead)].
  - exists []. repeat split; [constructor | discriminate].
  - simpl. destruct (isspace c) eqn:Hc.
    + exists (c :: ws). simpl. rewrite <- Heq. repeat split; auto.
    + exists []. repeat split; [constructor |].
      simpl. intros c' [= <-]. exact Hc.
Qed.

Lemma strip_spec s :
  exists ws1 ws2, s = ws1 ++ strip s ++ ws2 /\
                  Forall (fun c => isspace c = true) ws1 /\
                  Forall (fun c => isspace c = true) ws2 /\
                  trimmed (strip s).
Proof.
  unfold strip.
  destruct (lstrip_spec s) as (ws1 & Heq1 & Hws1 & Hhead1).
  destruct (lstrip_spec (rev (lstrip s))) as (ws2 & Heq2 & Hws2 & Hhead2).
  set (t := lstrip (rev (lstrip s))) in *.
  exists ws1, (rev ws2).
  assert (Hl : lstrip s = rev t ++ rev ws2).
  { rewrite <- rev_app_distr, <- Heq2, rev_involutive. reflexivity. }
  split; [rewrite <- Hl; exact Heq1 |].
  split; [exact Hws1 |].
  split; [apply List.Forall_rev, Hws2 |].
  split.
  - intros c Hc. destruct (rev t) as [| c' t'] eqn:Et; [discriminate |].
    simpl in Hc. injection Hc as ->. apply Hhead1.
    rewrite Hl. reflexivity.
  - intros c Hc. apply Hhead2. rewrite <- head_rev_last in Hc.
    rewrite rev_involutive in Hc. exact Hc.
Qed.

Lemma single_spaced_plain s prev :
  single_spaced prev s = true -> plain_spaces s.
Proof.
  revert prev. induction s as [| c s IH]; intros prev H; [constructor |].
  simpl in H. destruct (isspace c) eqn:Hc.
  - apply andb_true_iff in H. destruct H as [H1 H2].
    apply andb_true_iff in H1. destruct H1 as [_ H1].
    apply N.eqb_eq in H1. constructor; [auto | eapply IH; exact H2].
  - constructor; [congruence | eapply IH; exact H].
Qed.

Lemma single_spaced_no_pair s prev :
  single_spaced prev s = true -> no_space_pair s.
Proof.
  revert prev. induction s as [| c s IH]; intros prev H i x y Hx Hy Hsx.
  - discriminate.
  - simpl in H. destruct i as [| i].
    + simpl in Hx. injection Hx as ->. rewrite Hsx in H.
      apply andb_true_iff in H. destruct H as [_ H].
      destruct s as [| d s]; [discriminate |]. simpl in Hy. injection Hy as ->.
      simpl in H. destruct (isspace y); [discriminate | reflexivity].
    + simpl in Hx, Hy.
      assert (Hs : exists prev', single_spaced prev' s = true).
      { destruct (isspace c).
        - apply andb_true_iff in H. destruct H as [_ H]. eauto.
        - eauto. }
      destruct Hs as [prev' Hs]. exact (IH prev' Hs i x y Hx Hy Hsx).
Qed.

(** What the last line of [drop_fillers] returns, whatever it is given. *)
Lemma normalize_shape s :
  let out := strip (re_sub SPACES_RE [c_space] s) in
  trimmed out /\ no_space_pair out /\ plain_spaces out.
Proof.
  intros out. subst out. rewrite re_sub_spaces_squeeze.
  set (q := squeeze isspace c_space false s).
  destruct (strip_spec q) as (ws1 & ws2 & Heq & Hws1 & Hws2 & Htrim).
  assert (Hss : single_spaced false (strip q) = true).
  { pose proof (proj2 (squeeze_single_spaced s)) as Hq. fold q in Hq.
    unfold strip.
    assert (H1 : single_spaced false (lstrip q) = true)
      by (eapply single_spaced_lstrip; exact Hq).
    destruct (lstrip_spec (rev (lstrip q))) as (ws & Hr & _ & _).
    apply (f_equal (@rev char)) in Hr.
    rewrite rev_involutive, rev_app_distr in Hr.
    rewrite Hr in H1. eapply single_spaced_app. exact H1. }
  split; [exact Htrim |].
  split; [eapply single_spaced_no_pair | eapply single_spaced_plain]; exact Hss.
Qed.
End Squeeze.

(** ** The further properties *)

(** X1: [random_choice] on the empty list raises [ValueError] (from
    [randrange(0)]) and leaves the generator as it was; on a non-empty list
    it returns one of the elements of the list. *)
Theorem random_choice_spec (RNG : Generator) (seq : list text) :
  (seq = [] ->
   forall g, random_choice seq g
             = (g, inl (ValueError (U "empty range for randrange()")))) /\
  (GeneratorLaws RNG -> seq <> [] ->
   returns (random_choice seq) (fun x => In x seq)).
Proof.
  split.
  - intros -> g. reflexivity.
  - intros LAWS Hne. apply returns_random_choice. exact Hne.
Qed.

Lemma random_choice_spec_witness :
  random_choice (RNG := lcg) [] 7
  = (7, inl (ValueError (U "empty range for randrange()"))) /\
  returns (random_choice (RNG := lcg) [U "a"; U "b"])
          (fun x => In x [U "a"; U "b"]).
Proof.
  destruct (random_choice_spec lcg []) as [Hnil _].
  destruct (random_choice_spec lcg [U "a"; U "b"]) as [_ Hin].
  split.
  - apply (Hnil eq_refl 7).
  - apply (Hin lcg_laws). discriminate.
Defined.

(** X2: [punct_jitter] rewrites character by character: a [?] or [!]
    becomes itself, itself twice, [!?] or [?!]; a comma becomes itself,
    a comma and a space, or a semicolon and a space; every other character
    stays.  So the result is between once and twice as long as the text,
    and the characters other than [? ! , ;] and the space are the same, in
    the same order. *)
Theorem punct_jitter_shape (RNG : Generator) (txt : text) (p : float) :
  GeneratorLaws RNG ->
  returns (punct_jitter txt p)
    (fun out =>
       (exists parts, out = concat parts /\ Forall2 jittered txt parts) /\
       (length txt <= length out <= 2 * length txt)%nat /\
       (forall keep,
           none_kept keep [c_comma; c_space; c_quest; c_bang; c_semi] ->
           kept keep out = kept keep txt)).
Proof.
  intros LAWS.
  eapply returns_weaken; [apply punct_jitter_pieces |].
  intros out (parts & -> & Hparts).
  split; [eauto |]. split.
  - clear - Hparts.
    induction Hparts as [| c part cs parts Hc _ IH]; [simpl; lia |].
    apply jittered_length in Hc. simpl concat. rewrite length_app. simpl. lia.
  - intros keep Hkeep. clear - Hparts Hkeep.
    induction Hparts as [| c part cs parts Hc _ IH]; [reflexivity |].
    simpl concat. unfold kept in *. rewrite List.filter_app, IH.
    change (c :: cs) with ([c] ++ cs). rewrite List.filter_app. f_equal.
    apply (jittered_kept keep c part Hkeep Hc).
Qed.

Lemma punct_jitter_shape_witness :
  returns (punct_jitter (RNG := lcg) (U "a?b,c") fone)
    (fun out => (5 <= length out <= 10)%nat /\
                kept (fun c => N.leb 97 c) out = U "abc").
Proof.
  eapply returns_weaken;
    [apply (punct_jitter_shape lcg (U "a?b,c") fone lcg_laws) |].
  intros out (_ & Hlen & Hkept).
  split; [exact Hlen |].
  apply (Hkept (fun c => N.leb 97 c)).
  repeat constructor.
Defined.

Lemma drop_fillers_plain {UCD : Unicode} {RNG : Generator}
    (txt : text) (p : float) :
  fltb fzero p = true ->
  returns (drop_fillers txt p) plain_spaces.
Proof.
  intros Hp. unfold drop_fillers. rewrite (pos_not_le p Hp).
  eapply returns_bind.
  - apply (returns_foldM _ (fun _ => True)); [| exact I].
    intros acc f _ _. unfold drop_step.
    eapply returns_bind; [apply returns_random |].
    intros r _. apply returns_ret. exact I.
  - intros out _. apply returns_ret. apply normalize_shape.
Qed.

(** X3: for [p > 0] the text [drop_fillers] returns neither begins nor
    ends with white space, holds no two adjacent white space characters,
    and its only white space character is the plain space: line breaks and
    tabs of the input are gone. *)
Theorem drop_fillers_normalizes (UCD : Unicode) (RNG : Generator)
    (txt : text) (p : float) :
  fltb fzero p = true ->
  returns (drop_fillers txt p)
          (fun out => trimmed out /\ no_space_pair out /\ plain_spaces out).
Proof.
  intros Hp. unfold drop_fillers. rewrite (pos_not_le p Hp).
  eapply returns_bind.
  - apply (returns_foldM _ (fun _ => True)); [| exact I].
    intros acc f _ _. unfold drop_step.
    eapply returns_bind; [apply returns_random |].
    intros r _. apply returns_ret. exact I.
  - intros out _. apply returns_ret. apply normalize_shape.
Qed.

Lemma drop_fillers_normalizes_witness :
  returns (drop_fillers (UCD := basic_ucd) (RNG := lcg)
             [32; 97; 10; 10; 98; 9]%N f0_5)
          (fun out => trimmed (UCD := basic_ucd) out /\
                      no_space_pair (UCD := basic_ucd) out /\
                      plain_spaces (UCD := basic_ucd) out).
Proof.
  apply (drop_fillers_normalizes basic_ucd lcg [32; 97; 10; 10; 98; 9]%N f0_5).
  reflexivity.
Defined.

Lemma latin_mark_untouched (UCD : Unicode) :
  UnicodeLaws UCD -> untouched latin_mark.
Proof.
  intros ULAWS.
  assert (Hlow : forall c, latin_mark c = true -> basic_char c = true).
  { intros c H. unfold latin_mark in H. unfold basic_char.
    destruct (c <? 128)%N; [reflexivity | discriminate]. }
  split; [| split; [| split; [| split; [| split]]]].
  - intros c Hd. destruct (latin_mark c) eqn:E; [| reflexivity].
    destruct (basic_classes c (Hlow c E)) as (_ & Heq & _).
    rewrite Heq in Hd. cbn in Hd. unfold latin_mark in E. rewrite Hd in E.
    rewrite andb_false_r in E. discriminate.
  - intros c Hs. destruct (latin_mark c) eqn:E; [| reflexivity].
    destruct (basic_classes c (Hlow c E)) as (_ & _ & Heq).
    rewrite Heq in Hs. cbn in Hs. unfold latin_mark in E. rewrite Hs in E.
    rewrite !andb_false_r in E. discriminate.
  - repeat constructor.
  - repeat constructor.
  - by_evaluation.
  - by_evaluation.
Qed.

Lemma augment_dialogue_kept {UCD : Unicode} {RNG : Generator}
    (txt : text) (cfg : AugmentConfig) keep :
  GeneratorLaws RNG -> untouched keep ->
  returns (augment_dialogue txt cfg)
          (fun out => kept keep out = kept keep txt).
Proof.
  intros LAWS Hkeep. unfold augment_dialogue.
  eapply returns_bind;
    [apply (replace_phrases_kept keep Hkeep); exact LAWS |].
  intros o1 H1.
  eapply returns_bind; [apply (mask_numbers_kept keep Hkeep) |].
  intros o2 H2.
  eapply returns_bind; [apply (drop_fillers_kept keep Hkeep) |].
  intros o3 H3.
  eapply returns_bind;
    [apply (punct_jitter_kept keep Hkeep); exact LAWS |].
  intros o4 H4. apply returns_ret. congruence.
Qed.

(** X4: [augment_dialogue] leaves alone every character that is none of
    those its transforms act on (digits, white space, [, . ? ! ;], the
    characters of [<NUM>], of the lexicon and of the fillers): the
    characters a predicate [keep] selects among these are the same before
    and after, in the same order.  In particular the letters and marks of
    Basic Latin, the [#] and the letters of the speaker tags among them,
    are never deleted, inserted or reordered. *)
Theorem augment_dialogue_keeps (UCD : Unicode) (RNG : Generator)
    (txt : text) (cfg : AugmentConfig) :
  GeneratorLaws RNG ->
  (forall keep, untouched keep ->
     returns (augment_dialogue txt cfg)
             (fun out => kept keep out = kept keep txt)) /\
  (UnicodeLaws UCD ->
   returns (augment_dialogue txt cfg)
           (fun out => kept latin_mark out = kept latin_mark txt)).
Proof.
  intros LAWS. split.
  - intros keep Hkeep. apply augment_dialogue_kept; assumption.
  - intros ULAWS. apply augment_dialogue_kept; [exact LAWS |].
    apply latin_mark_untouched, ULAWS.
Qed.

Lemma augment_dialogue_keeps_witness :
  returns (augment_dialogue (UCD := basic_ucd) (RNG := lcg)
             (U "#Person1#: 음, 30 (ok)?") (default_config 42))
          (fun out => kept latin_mark out = U "#Person#:(ok)").
Proof.
  destruct (augment_dialogue_keeps basic_ucd lcg (U "#Person1#: 음, 30 (ok)?")
              (default_config 42) lcg_laws) as [_ H].
  apply (H basic_ucd_laws).
Defined.

Lemma jittered_plain {UCD : Unicode} c part :
  UnicodeLaws UCD -> (isspace c = true -> c = c_space) -> jittered c part ->
  plain_spaces part.
Proof.
  intros ULAWS Hc.
  assert (Hq : isspace c_quest = true -> c_quest = c_space).
  { destruct (basic_classes c_quest eq_refl) as (_ & _ & ->). discriminate. }
  assert (Hb : isspace c_bang = true -> c_bang = c_space).
  { destruct (basic_classes c_bang eq_refl) as (_ & _ & ->). discriminate. }
  assert (Hm : isspace c_comma = true -> c_comma = c_space).
  { destruct (basic_classes c_comma eq_refl) as (_ & _ & ->). discriminate. }
  assert (Hs : isspace c_semi = true -> c_semi = c_space).
  { destruct (basic_classes c_semi eq_refl) as (_ & _ & ->). discriminate. }
  unfold jittered, plain_spaces.
  destruct (chr_eqb c c_quest || chr_eqb c c_bang).
  - intros [<- | [<- | [<- | [<- | []]]]]; repeat constructor; auto.
  - destruct (chr_eqb c c_comma).
    + intros [<- | [<- | [<- | []]]]; repeat constructor; auto.
    + intros ->. repeat constructor; auto.
Qed.

Lemma augment_dialogue_plain {UCD : Unicode} {RNG : Generator}
    (txt : text) (cfg : AugmentConfig) :
  UnicodeLaws UCD -> GeneratorLaws RNG ->
  fltb fzero (p_drop_filler cfg) = true ->
  returns (augment_dialogue txt cfg) plain_spaces.
Proof.
  intros ULAWS LAWS Hp. unfold augment_dialogue.
  eapply returns_bind; [apply replace_phrases_total |]. intros o1 _.
  eapply returns_bind; [apply mask_numbers_total |]. intros o2 _.
  eapply returns_bind; [apply (drop_fillers_plain o2 _ Hp) |].
  intros o3 H3.
  eapply returns_bind; [apply punct_jitter_pieces |].
  intros o4 (parts & -> & Hparts). apply returns_ret.
  unfold plain_spaces in *. clear - ULAWS H3 Hparts.
  induction Hparts as [| c part cs parts Hc _ IH]; [constructor |].
  inversion H3 as [| ? ? Hc3 H3']; subst.
  simpl. apply Forall_app. split; [| apply IH, H3'].
  apply (jittered_plain c part ULAWS Hc3 Hc).
Qed.

(** X5: when the probability of filler removal is positive, as in every
    run, the only white space of an augmented dialogue is the plain space,
    and the dialogue holds no line feed and no tab: a multi-line dialogue
    comes back on one line. *)
Theorem augment_dialogue_one_line (UCD : Unicode) (RNG : Generator)
    (txt : text) (cfg : AugmentConfig) :
  UnicodeLaws UCD -> GeneratorLaws RNG ->
  fltb fzero (p_drop_filler cfg) = true ->
  returns (augment_dialogue txt cfg)
          (fun out => plain_spaces out /\ ~ In 10%N out /\ ~ In 9%N out).
Proof.
  intros ULAWS LAWS Hp.
  eapply returns_weaken; [apply (augment_dialogue_plain txt cfg ULAWS LAWS Hp) |].
  intros out Hout. split; [exact Hout |].
  unfold plain_spaces in Hout. rewrite List.Forall_forall in Hout.
  split; intros Hin; pose proof (Hout _ Hin) as Hsp.
  - destruct (basic_classes 10%N eq_refl) as (_ & _ & E).
    discriminate (Hsp E).
  - destruct (basic_classes 9%N eq_refl) as (_ & _ & E).
    discriminate (Hsp E).
Qed.

Lemma augment_dialogue_one_line_witness :
  returns (augment_dialogue (UCD := basic_ucd) (RNG := lcg)
             [35; 65; 35; 58; 32; 104; 105; 44; 10; 35; 66; 35; 58; 9; 63]%N
             (default_config 42))
          (fun out => plain_spaces (UCD := basic_ucd) out /\
                      ~ In 10%N out /\ ~ In 9%N out).
Proof.
  apply (augment_dialogue_one_line basic_ucd lcg
           [35; 65; 35; 58; 32; 104; 105; 44; 10; 35; 66; 35; 58; 9; 63]%N
           (default_config 42) basic_ucd_laws lcg_laws).
  reflexivity.
Defined.

(** X6: a synthetic identifier can be read back: [f"{a}_aug{i}"] and
    [f"{b}_aug{j}"] are equal only for the same source identifier and the
    same index, and a synthetic identifier differs from the identifier it
    was made from. *)
Theorem ensure_unique_fname_decodes (a b : text) (i j : nat) :
  (ensure_unique_fname a i = ensure_unique_fname b j <-> a = b /\ i = j) /\
  ensure_unique_fname a i <> a.
Proof.
  split.
  - split; [apply ensure_unique_fname_inj | intros [-> ->]; reflexivity].
  - unfold ensure_unique_fname. intros H.
    apply (f_equal (@length char)) in H. rewrite !length_app in H.
    simpl in H. lia.
Qed.

Lemma run_augment_effect {UCD : Unicode} {RNG : Generator}
    input output factor seed limit (w : World) :
  exists g' written res,
    run_augment input output factor seed limit w
    = ({| fs := store output written (fs w); rng := g' |}, res) /\
    match res with
    | inl _ => written = None
    | inr _ => is_Some written
    end.
Proof.
  rewrite run_augment_cases. cbv zeta.
  destruct (fs w !! input) as [df0 |];
    [| eexists _, None, _; split; reflexivity].
  destruct (check_columns required_cols df0 input) as [e | []];
    [eexists _, None, _; split; reflexivity |].
  destruct (compute_aug_count _ factor) as [e | m];
    [eexists _, None, _; split; reflexivity |].
  destruct (m =? 0);
    [eexists _, (Some _), _; split; [reflexivity | eexists; reflexivity] |].
  match goal with
  | |- context [mapM ?f (seq 0 ?k) ?g] =>
    destruct (mapM f (seq 0 k) g) as [g1 [e | idx]]
  end;
    [eexists _, None, _; split; reflexivity |].
  match goal with
  | |- context [mapM ?f (enumerate idx) g1] =>
    destruct (mapM f (enumerate idx) g1) as [g2 [e | rows_aug]]
  end;
    [eexists _, None, _; split; reflexivity |].
  eexists _, (Some _), _; split; [reflexivity | eexists; reflexivity].
Qed.

(** X7: a run changes no file but the one at the output path, and a run
    that raises changes no file at all; a run that returns has written the
    output file.  (When the output path is the input path, the input is
    overwritten.) *)
Theorem run_augment_touches_only_output (UCD : Unicode) (RNG : Generator)
    (input output : text) (factor : float) (seed : Z) (limit : option Z)
    (w : World) :
  let w' := fst (run_augment input output factor seed limit w) in
  let res := snd (run_augment input output factor seed limit w) in
  (forall path, path <> output -> fs w' !! path = fs w !! path) /\
  (forall e, res = inl e -> fs w' = fs w) /\
  (forall r, res = inr r -> is_Some (fs w' !! output)).
Proof.
  intros w' res. subst w' res.
  destruct (run_augment_effect input output factor seed limit w)
    as (g' & written & res & Hrun & Hres).
  rewrite Hrun. cbn [fst snd fs].
  split; [| split].
  - intros path Hpath. destruct written as [df |]; simpl; [| reflexivity].
    apply lookup_insert_ne. congruence.
  - intros e ->. rewrite Hres. reflexivity.
  - intros r ->. destruct Hres as [df ->]. simpl.
    rewrite lookup_insert_eq. eauto.
Qed.

Lemma run_augment_touches_only_output_witness :
  fs (fst (run_augment (UCD := basic_ucd) Example.input Example.output
             f0_5 42 None (Example.world_of Example.more_files 0)))
     !! U "other.csv"
  = Example.more_files !! U "other.csv".
Proof.
  refine (proj1 (run_augment_touches_only_output basic_ucd lcg Example.input
                   Example.output f0_5 42 None
                   (Example.world_of Example.more_files 0)) (U "other.csv") _).
  discriminate.
Defined.

Lemma df_head_rows df l :
  exists k, rows (df_head df l) = take k (rows df) /\
            Z.of_nat (length (rows (df_head df l)))
            = if 0 <=? l then Z.min l (Z.of_nat (length (rows df)))
              else Z.max 0 (Z.of_nat (length (rows df)) + l).
Proof.
  unfold df_head. cbn [rows]. destruct (0 <=? l) eqn:E.
  - eexists. split; [reflexivity |]. rewrite length_take.
    apply Z.leb_le in E. lia.
  - eexists. split; [reflexivity |]. rewrite length_take.
    apply Z.leb_gt in E. lia.
Qed.

(** X8: the rows a run considers are a prefix of the rows read: all of
    them without a limit, the first [limit] (or all, if there are fewer)
    for a limit [>= 0], all but the last [-limit] for a negative limit.
    The run reports their number as [rows_in], and they are the first
    [rows_in] rows of the file it writes. *)
Theorem run_augment_limit_prefix (UCD : Unicode) (RNG : Generator)
    (input output : text) (factor : float) (seed : Z) (limit : option Z)
    (w w' : World) (df0 : DataFrame) (rows_in rows_out : Z) :
  fs w !! input = Some df0 ->
  run_augment input output factor seed limit w = (w', inr (rows_in, rows_out)) ->
  let n0 := Z.of_nat (length (rows df0)) in
  rows_in = match limit with
            | None => n0
            | Some l => if 0 <=? l then Z.min l n0 else Z.max 0 (n0 + l)
            end /\
  exists df_out,
    fs w' !! output = Some df_out /\
    columns df_out = columns df0 /\
    take (Z.to_nat rows_in) (rows df_out) = take (Z.to_nat rows_in) (rows df0).
Proof.
  intros Hin Hrun n0.
  rewrite run_augment_cases, Hin in Hrun. cbv zeta in Hrun.
  destruct (check_columns required_cols df0 input) as [e | []] eqn:Hchk;
    [discriminate |].
  pose proof (proj1 (check_columns_ok _ _ _) Hchk) as Hcols.
  set (df := match limit with Some l => df_head df0 l | None => df0 end) in *.
  assert (Hdf : exists k, rows df = take k (rows df0) /\ columns df = columns df0 /\
            Z.of_nat (length (rows df))
            = match limit with
              | None => n0
              | Some l => if 0 <=? l then Z.min l n0 else Z.max 0 (n0 + l)
              end).
  { subst df. destruct limit as [l |].
    - destruct (df_head_rows df0 l) as (k & Hk & Hlen). eauto.
    - exists (length (rows df0)). rewrite firstn_all. auto. }
  destruct Hdf as (k & Hk & Hc & Hlen).
  assert (Hpre : take (length (rows df)) (rows df0) = rows df).
  { rewrite Hk, length_take, <- take_take.
    rewrite (take_ge (rows df0) (length (rows df0))) by lia. reflexivity. }
  destruct (compute_aug_count _ factor) as [e | m]; [discriminate |].
  destruct (m =? 0).
  - injection Hrun as <- <- _. split; [exact Hlen |].
    exists df. cbn [fs]. rewrite lookup_insert_eq.
    split; [reflexivity |]. split; [exact Hc |].
    rewrite Nat2Z.id, Hpre. apply take_ge. lia.
  - match type of Hrun with
    | context [mapM ?f (seq 0 ?k) ?g] =>
      destruct (mapM f (seq 0 k) g) as [g1 [e | idx]]
    end;
      [discriminate |].
    match type of Hrun with
    | context [mapM ?f (enumerate idx) g1] =>
      destruct (mapM f (enumerate idx) g1) as [g2 [e | rows_aug]]
    end;
      [discriminate |].
    injection Hrun as <- <- _. split; [exact Hlen |].
    eexists. cbn [fs]. rewrite lookup_insert_eq.
    split; [reflexivity |].
    split.
    + assert (Hcols' : forall c, In c required_cols -> c ∈ columns df)
        by (rewrite Hc; exact Hcols).
      rewrite (concat_columns df rows_aug Hcols'). exact Hc.
    + cbn [rows df_concat df_of_rows]. rewrite Nat2Z.id, Hpre.
      apply take_app_length.
Qed.

Lemma run_augment_limit_prefix_witness :
  let w' := fst (run_augment (UCD := basic_ucd) Example.input Example.output
                   f0_5 42 (Some 1) (Example.world 0)) in
  1 = Z.min 1 2 /\
  exists df_out,
    fs w' !! Example.output = Some df_out /\
    columns df_out = columns Example.df2 /\
    take 1 (rows df_out) = take 1 (rows Example.df2).
Proof.
  refine (run_augment_limit_prefix basic_ucd lcg Example.input Example.output
            f0_5 42 (Some 1) (Example.world 0) _ Example.df2 1 2 _ _).
  - vm_compute. reflexivity.
  - etransitivity; [apply surjective_pairing |].
    apply (f_equal (pair _)). vm_compute. reflexivity.
Defined.

Section OnlyDeletes.
Context {UCD : Unicode} {RNG : Generator}.

Lemma kept_sublist keep (s t : text) :
  s `sublist_of` t -> kept keep s `sublist_of` kept keep t.
Proof.
  unfold kept. induction 1 as [| c s t _ IH | c s t _ IH]; simpl.
  - constructor.
  - destruct (keep c); [apply sublist_skip |]; exact IH.
  - destruct (keep c); [apply sublist_cons |]; exact IH.
Qed.

Lemma squeeze_solid in_run s :
  kept solid (squeeze isspace c_space in_run s) = kept solid s.
Proof.
  assert (Hsp : solid c_space = false).
  { unfold solid. unfold chr_eqb. rewrite N.eqb_refl. apply andb_false_r. }
  unfold kept. revert in_run.
  induction s as [| c s IH]; intros in_run; [reflexivity |].
  simpl. destruct (isspace c) eqn:Hc.
  - assert (Hs : solid c = false) by (unfold solid; rewrite Hc; reflexivity).
    rewrite Hs. destruct in_run; simpl; rewrite ?Hsp; apply IH.
  - simpl. rewrite IH. reflexivity.
Qed.

Lemma squeeze_length in_run s :
  (length (squeeze isspace c_space in_run s) <= length s)%nat.
Proof.
  revert in_run. induction s as [| c s IH]; intros in_run; simpl; [lia |].
  pose proof (IH true). pose proof (IH false).
  destruct (isspace c); [destruct in_run |]; simpl; lia.
Qed.

Lemma strip_sublist s : strip s `sublist_of` s.
Proof.
  destruct (strip_spec s) as (ws1 & ws2 & Heq & _).
  rewrite Heq at 2. apply sublist_inserts_l, sublist_inserts_r. reflexivity.
Qed.

Lemma drop_loop_sublist p fillers txt :
  returns (foldM (drop_step p) fillers txt) (fun out => out `sublist_of` txt).
Proof.
  apply (returns_foldM _ (fun out => out `sublist_of` txt)); [| reflexivity].
  intros acc f _ Hacc. unfold drop_step.
  eapply returns_bind; [apply returns_random |].
  intros r _. apply returns_ret. destruct (fltb r p); [| exact Hacc].
  etransitivity; [apply re_sub_empty_sublist | exact Hacc].
Qed.
End OnlyDeletes.

(** X9: [drop_fillers] only deletes and merges white space: its result is
    never longer than the text, and, white space and spaces set aside, the
    characters of the result are characters of the text in the same order
    (nothing is inserted, nothing is reordered). *)
Theorem drop_fillers_only_deletes (UCD : Unicode) (RNG : Generator)
    (txt : text) (p : float) :
  returns (drop_fillers txt p)
          (fun out => (length out <= length txt)%nat /\
                      kept solid out `sublist_of` kept solid txt).
Proof.
  unfold drop_fillers. destruct (fleb p fzero).
  - apply returns_ret. split; [lia | reflexivity].
  - eapply returns_bind; [apply drop_loop_sublist |].
    intros out Hout. apply returns_ret.
    rewrite re_sub_spaces_squeeze. split.
    + etransitivity; [apply sublist_length, strip_sublist |].
      etransitivity; [apply squeeze_length |].
      apply sublist_length, Hout.
    + etransitivity; [apply kept_sublist, strip_sublist |].
      rewrite squeeze_solid. apply kept_sublist, Hout.
Qed.

Lemma returns_at {S A} (m : M S A) (P : A -> Prop) s s' a :
  returns m P -> m s = (s', inr a) -> P a.
Proof.
  intros H E. destruct (H s) as (s1 & a1 & E1 & Ha).
  rewrite E in E1. injection E1 as <- <-. exact Ha.
Qed.

(** X10: in the file written by a run that samples [m > 0] rows of a
    non-empty frame, the synthetic row number [i] is made from the row at
    the [i]-th index drawn from the seeded generator.  Its dialogue has the
    plain space as its only white space (it is on one line).  The
    characters of Basic Latin in it, other than digits, white space, the
    punctuation [, . ? ! ;] and the characters [< N U M >], are those of
    the source dialogue, in the same order: they are neither deleted,
    inserted nor reordered.  When the source row has no dialogue, they are
    those of the text [nan]. *)
Theorem run_augment_synthetic_dialogues (UCD : Unicode) (RNG : Generator)
    (input output : text) (factor : float) (seed : Z) (limit : option Z)
    (w : World) (df0 : DataFrame) (m : Z) :
  UnicodeLaws UCD -> GeneratorLaws RNG ->
  fs w !! input = Some df0 ->
  (forall c, In c required_cols -> c ∈ columns df0) ->
  let df := match limit with Some l => df_head df0 l | None => df0 end in
  let n := Z.of_nat (length (rows df)) in
  0 < n ->
  compute_aug_count n factor = inr m ->
  0 < m ->
  exists idx g1 rows_aug w',
    mapM (fun _ : nat => randrange n) (seq 0 (Z.to_nat m)) (gen_seed seed)
    = (g1, inr idx) /\
    run_augment input output factor seed limit w = (w', inr (n, n + m)) /\
    fs w' !! output = Some {| columns := columns df;
                              rows := rows df ++ rows_aug |} /\
    length rows_aug = Z.to_nat m /\
    forall (i : nat) row, rows_aug !! i = Some row ->
      exists k src dlg,
        idx !! i = Some k /\
        rows df !! Z.to_nat k = Some src /\
        row !! c_dialogue = Some dlg /\
        plain_spaces dlg /\
        kept latin_mark dlg = match src !! c_dialogue with
                              | Some d => kept latin_mark d
                              | None => U "nan"
                              end.
Proof.
  intros ULAWS LAWS Hin Hcols df n Hn Hm Hm0.
  destruct (run_augment_rows input output factor seed limit w df0 m
              Hin Hcols Hn Hm Hm0)
    as (idx & gs & rows_aug & g1 & g' & Hidx & Hrun & _ & Hlen & _ & _ & _
        & Hrows).
  fold df in Hrun, Hrows. fold n in Hidx, Hrun, Hrows.
  eexists idx, g1, rows_aug, _.
  split; [exact Hidx |]. split; [exact Hrun |].
  split; [cbn [fs]; apply lookup_insert_eq |]. split; [exact Hlen |].
  intros i row Hrow.
  destruct (Hrows i row Hrow)
    as (k & src & dlg & ga & gb & Hk & _ & Hsrc & _ & _ & Haug & _ & Hd & _).
  exists k, src, dlg.
  split; [exact Hk |]. split; [exact Hsrc |]. split; [exact Hd |]. split.
  - refine (returns_at _ plain_spaces _ _ _ _ Haug).
    apply augment_dialogue_plain; auto.
  - transitivity (kept latin_mark (py_str (src !! c_dialogue)));
      [| destruct (src !! c_dialogue); reflexivity].
    refine (returns_at _ (fun out => kept latin_mark out = _) _ _ _ _ Haug).
    apply augment_dialogue_kept; [exact LAWS |].
    apply latin_mark_untouched, ULAWS.
Qed.

Lemma run_augment_synthetic_dialogues_witness :
  exists (idx : list Z) (g1 : Z) (rows_aug : list (gmap text text))
         (w' : World (RNG := lcg)),
    mapM (fun _ : nat => randrange (RNG := lcg) 2) (seq 0 1) 42
    = (g1, inr idx) /\
    run_augment (UCD := basic_ucd) Example.input Example.output f0_5 42 None
                (Example.world 0) = (w', inr (2, 2 + 1)) /\
    fs w' !! Example.output
    = Some {| columns := required_cols;
              rows := rows Example.df2 ++ rows_aug |} /\
    length rows_aug = 1%nat /\
    forall (i : nat) (row : gmap text text), rows_aug !! i = Some row ->
      exists (k : Z) (src : gmap text text) (dlg : text),
        idx !! i = Some k /\
        rows Example.df2 !! Z.to_nat k = Some src /\
        row !! c_dialogue = Some dlg /\
        plain_spaces (UCD := basic_ucd) dlg /\
        kept latin_mark dlg = match src !! c_dialogue with
                              | Some d => kept latin_mark d
                              | None => U "nan"
                              end.
Proof.
  refine (run_augment_synthetic_dialogues basic_ucd lcg Example.input
            Example.output f0_5 42 None (Example.world 0) Example.df2 1
            basic_ucd_laws lcg_laws _ _ _ _ _).
  - vm_compute. reflexivity.
  - intros c Hc. apply list_elem_of_In. exact Hc.
  - simpl. lia.
  - vm_compute. reflexivity.
  - lia.
Defined.

(** ** Replacements of the lexicon *)

Lemma starts_with_app key rest : starts_with key (key ++ rest) = true.
Proof.
  induction key as [| c key IH]; [reflexivity |]. simpl.
  unfold chr_eqb. rewrite N.eqb_refl. exact IH.
Qed.

(** [s.replace(key, cand, 1)] on a text that holds [key]: the leftmost
    occurrence is replaced. *)
Lemma replace_first_spec key cand s :
  contains key s = true ->
  exists pre post,
    s = pre ++ key ++ post /\
    replace_first key cand s = pre ++ cand ++ post /\
    (forall pre' post', s = pre' ++ key ++ post' ->
                        (length pre <= length pre')%nat).
Proof.
  induction s as [| c s IH]; intros H.
  - cbn [contains] in H. rewrite orb_false_r in H.
    destruct key as [| k key]; [| discriminate].
    exists [], []. cbn. rewrite app_nil_r.
    split; [reflexivity |]. split; [reflexivity |].
    intros pre' post' _. apply Nat.le_0_l.
  - cbn [contains] in H. cbn [replace_first].
    destruct (starts_with key (c :: s)) eqn:E.
    + exists [], (drop (length key) (c :: s)). simpl app.
      split; [apply starts_with_spec, E |]. split; [reflexivity |].
      intros pre' post' _. apply Nat.le_0_l.
    + simpl in H. destruct (IH H) as (pre & post & -> & -> & Hleft).
      exists (c :: pre), post. split; [reflexivity |]. split; [reflexivity |].
      intros pre' post' Heq. destruct pre' as [| c' pre'].
      * simpl in Heq. rewrite Heq, starts_with_app in E. discriminate.
      * injection Heq as _ Heq. simpl. apply Hleft in Heq. lia.
Qed.

(** X11: [replace_phrases] changes the text by replacements of the lexicon
    only, one after the other: each one puts an alternative of a key in
    the place of the leftmost occurrence of that key in the text reached so
    far. *)
Theorem replace_phrases_steps (RNG : Generator) (txt : text) (p_syn : float) :
  GeneratorLaws RNG ->
  returns (replace_phrases txt p_syn) (fun out => rtc lex_step txt out).
Proof.
  intros LAWS. unfold replace_phrases. destruct (fleb p_syn fzero).
  - apply returns_ret. apply rtc_refl.
  - apply (returns_foldM _ (fun out => rtc lex_step txt out));
      [| apply rtc_refl].
    intros acc key Hkey Hacc.
    eapply returns_bind; [apply returns_random |].
    intros r _. destruct (fltb r p_syn && contains key acc) eqn:Hcond;
      [| apply returns_ret; exact Hacc].
    apply andb_true_iff in Hcond. destruct Hcond as [_ Hcont].
    pose proof synonyms_found as Hall. rewrite List.Forall_forall in Hall.
    destruct (Hall key Hkey) as (alts & E & Hne).
    eapply returns_bind;
      [apply (returns_lift _ alts (fun a => a = alts)); [exact E | reflexivity] |].
    intros alts' ->.
    eapply returns_bind; [apply returns_random_choice; exact Hne |].
    intros cand Hcand. apply returns_ret.
    eapply rtc_r; [exact Hacc |].
    destruct (replace_first_spec key cand acc Hcont)
      as (pre & post & Heq & Hrep & Hleft).
    exists key, alts, cand, pre, post.
    split; [apply dict_get_In, E |]. auto.
Qed.

Lemma replace_phrases_steps_witness :
  returns (replace_phrases (RNG := lcg) (U "정말 감사합니다") fone)
          (fun out => rtc lex_step (U "정말 감사합니다") out).
Proof.
  apply (replace_phrases_steps lcg (U "정말 감사합니다") fone lcg_laws).
Defined.
